(** * BookByte: the paragraph-extraction core of [backend/app/core/services.py]

    A shallow embedding of [OpenAIService]: the chunker
    ([_chunk_book_text]), the per-chunk pipeline ([_process_single_chunk]:
    prompt, backend call, layered recovery of the completion text) and the
    orchestrator ([process_book_text]).

    Conventions.
    - A Python [str] is a list of code points ([N]); [len] is the number of
      code points, as in Python.
    - Python [int]s are [Z].
    - The backend ([self.client.chat.completions.create]) is a transition
      function on an abstract backend state; every call is logged.
    - Exceptions are values of [exn]; a raised exception is [Raise e].  The
      service raises plain [Exception]s that differ by their message; the
      constructors of [exn] name the place that raises.
    - A loop that does not end is [None] (for the chunker) or [Diverge]
      (for the service).
    - [print] calls are left out. *)

From Stdlib Require Import Ascii String.
From Stdlib Require Import List ZArith NArith Lia Bool DecimalString.
From Stdlib Require DecimalPos DecimalZ.
Import ListNotations.
Open Scope Z_scope.

(** ** Strings *)

Definition char := N.
Definition str := list char.

Definition len {A : Type} (s : list A) : Z := Z.of_nat (List.length s).

Fixpoint str_of (s : string) : str :=
  match s with
  | EmptyString => []
  | String a s' => N_of_ascii a :: str_of s'
  end.

Definition chr (a : ascii) : char := N_of_ascii a.

(** The double quote, code point 34. *)
Definition dquote : char := 34%N.

Definition str_eqb (a b : str) : bool :=
  if list_eq_dec N.eq_dec a b then true else false.

Fixpoint starts_with (p s : str) : bool :=
  match p, s with
  | [], _ => true
  | _ :: _, [] => false
  | x :: p', y :: s' => (x =? y)%N && starts_with p' s'
  end.

(** [sub in s] *)
Fixpoint contains (sub s : str) : bool :=
  starts_with sub s ||
  match s with
  | [] => false
  | _ :: s' => contains sub s'
  end.

(** [s.count(c)] for a one-character [c] *)
Definition count_char (c : char) (s : str) : Z :=
  len (filter (fun x => (x =? c)%N) s).

(** [c * n]: the character repeated, nothing for [n <= 0] *)
Definition repeat_char (c : char) (n : Z) : str := repeat c (Z.to_nat n).

(** Index normalisation of a slice bound on a sequence of length [n]. *)
Definition clamp_index (n i : Z) : Z :=
  if i <? 0 then Z.max 0 (i + n) else Z.min i n.

(** [s[lo:hi]] *)
Definition py_slice {A : Type} (s : list A) (lo hi : Z) : list A :=
  let n := len s in
  let lo' := clamp_index n lo in
  let hi' := clamp_index n hi in
  firstn (Z.to_nat (hi' - lo')) (skipn (Z.to_nat lo') s).

(** ** Chunker *)

(** The [while] loop of [_chunk_book_text]; [None] when [fuel] iterations
    were not enough. *)
Fixpoint chunk_loop (fuel : nat) (text : str) (chunk_size : Z)
    (chunks : list str) (current_index : Z) : option (list str) :=
  if current_index <? len text then
    match fuel with
    | O => None
    | S fuel' =>
        let chunk := py_slice text current_index (current_index + chunk_size) in
        chunk_loop fuel' text chunk_size (chunks ++ [chunk])
          (current_index + chunk_size)
    end
  else Some chunks.

(** [_chunk_book_text]: the loop from index 0 with no chunk yet.  One
    iteration per character is enough when the chunk size is positive. *)
Definition _chunk_book_text (text : str) (chunk_size : Z) : option (list str) :=
  chunk_loop (List.length text) text chunk_size [] 0.

(** The last element of a list, if any. *)
Fixpoint last_error {A : Type} (l : list A) : option A :=
  match l with
  | [] => None
  | [x] => Some x
  | _ :: l' => last_error l'
  end.

(** ** JSON values, as [json.loads] builds them *)

(** A Python [float] read from a literal: the decimal
    [(-1)^neg * mant * 10^exp10] before rounding to a double, or one of the
    constants [NaN], [Infinity], [-Infinity]. *)
Inductive pyfloat :=
| FNaN
| FInf (neg : bool)
| FDec (neg : bool) (mant : Z) (exp10 : Z).

#[warnings="-register-all"]
Inductive json :=
| JNull
| JBool (b : bool)
| JInt (n : Z)
| JFloat (f : pyfloat)
| JStr (s : str)
| JList (l : list json)
| JDict (d : list (str * json)).

(** A [dict] keeps one entry per key, in order of first insertion. *)
Fixpoint dict_set (d : list (str * json)) (k : str) (v : json)
  : list (str * json) :=
  match d with
  | [] => [(k, v)]
  | (k', v') :: d' =>
      if str_eqb k' k then (k', v) :: d' else (k', v') :: dict_set d' k v
  end.

(** [d.get(k)] *)
Fixpoint dict_get (d : list (str * json)) (k : str) : option json :=
  match d with
  | [] => None
  | (k', v) :: d' => if str_eqb k' k then Some v else dict_get d' k
  end.

(** A decimal literal rounds to zero exactly when it is at most half the
    least subnormal double, [2^-1075]. *)
Definition float_is_zero (f : pyfloat) : bool :=
  match f with
  | FDec _ m e => (m =? 0) || ((e <? 0) && (m * 2 ^ 1075 <=? 10 ^ (- e)))
  | _ => false
  end.

(** Python truth value *)
Definition truthy (v : json) : bool :=
  match v with
  | JNull => false
  | JBool b => b
  | JInt n => negb (n =? 0)
  | JFloat f => negb (float_is_zero f)
  | JStr s => match s with [] => false | _ => true end
  | JList l => match l with [] => false | _ => true end
  | JDict d => match d with [] => false | _ => true end
  end.

(** ** [json.loads]

    The decoder of the standard library (CPython's scanner): whitespace is
    space, tab, line feed and carriage return; strings are strict (no raw
    control characters); [NaN], [Infinity] and [-Infinity] are accepted;
    text after the value is an error.  The limits of the interpreter (the
    recursion depth, the number of digits of an [int]) are not modelled. *)

Inductive pres (A : Type) :=
| POk (v : A) (rest : str)
| PErr
| PFuel.
Arguments POk {A} v rest.
Arguments PErr {A}.
Arguments PFuel {A}.

Definition is_json_ws (c : char) : bool :=
  ((c =? 32) || (c =? 9) || (c =? 10) || (c =? 13))%N.

Fixpoint skip_ws (s : str) : str :=
  match s with
  | c :: s' => if is_json_ws c then skip_ws s' else s
  | [] => []
  end.

Definition is_digit (c : char) : bool := ((48 <=? c) && (c <=? 57))%N.

Definition digit_val (c : char) : Z := Z.of_N (c - 48).

Fixpoint span_digits (s : str) : str * str :=
  match s with
  | c :: s' =>
      if is_digit c then let (ds, r) := span_digits s' in (c :: ds, r)
      else ([], s)
  | [] => ([], [])
  end.

Definition digits_value (ds : str) : Z :=
  fold_left (fun a c => 10 * a + digit_val c) ds 0.

Definition hex_val (c : char) : option N :=
  if is_digit c then Some (c - 48)%N
  else if ((97 <=? c) && (c <=? 102))%N then Some (c - 87)%N
  else if ((65 <=? c) && (c <=? 70))%N then Some (c - 55)%N
  else None.

(** Four hexadecimal digits *)
Definition hex4 (s : str) : option (N * str) :=
  match s with
  | a :: b :: c :: d :: r =>
      match hex_val a, hex_val b, hex_val c, hex_val d with
      | Some x, Some y, Some z, Some w =>
          Some (((x * 16 + y) * 16 + z) * 16 + w, r)%N
      | _, _, _, _ => None
      end
  | _ => None
  end.

(** The character a one-letter escape stands for. *)
Definition simple_escape (c : char) : option char :=
  if (c =? dquote)%N then Some dquote
  else if (c =? chr "\")%N then Some (chr "\")
  else if (c =? chr "/")%N then Some (chr "/")
  else if (c =? chr "b")%N then Some 8%N
  else if (c =? chr "f")%N then Some 12%N
  else if (c =? chr "n")%N then Some 10%N
  else if (c =? chr "r")%N then Some 13%N
  else if (c =? chr "t")%N then Some 9%N
  else None.

Definition is_high_surrogate (c : N) : bool :=
  ((55296 <=? c) && (c <=? 56319))%N.
Definition is_low_surrogate (c : N) : bool :=
  ((56320 <=? c) && (c <=? 57343))%N.
Definition join_surrogates (hi lo : N) : N :=
  (65536 + ((hi - 55296) * 1024 + (lo - 56320)))%N.

(** The body of a string literal, after its opening quote. *)
Fixpoint scanstring (fuel : nat) (s : str) (acc : str) : pres str :=
  match fuel with
  | O => PFuel
  | S fuel' =>
      match s with
      | [] => PErr
      | c :: s1 =>
          if (c =? dquote)%N then POk acc s1
          else if (c =? chr "\")%N then
            match s1 with
            | [] => PErr
            | e :: s2 =>
                if (e =? chr "u")%N then
                  match hex4 s2 with
                  | None => PErr
                  | Some (u, s3) =>
                      if is_high_surrogate u && starts_with [chr "\"; chr "u"] s3
                      then
                        match hex4 (skipn 2 s3) with
                        | None => PErr
                        | Some (u2, s4) =>
                            if is_low_surrogate u2
                            then scanstring fuel' s4 (acc ++ [join_surrogates u u2])
                            else scanstring fuel' s3 (acc ++ [u])
                        end
                      else scanstring fuel' s3 (acc ++ [u])
                  end
                else
                  match simple_escape e with
                  | Some x => scanstring fuel' s2 (acc ++ [x])
                  | None => PErr
                  end
            end
          else if (c <=? 31)%N then PErr
          else scanstring fuel' s1 (acc ++ [c])
      end
  end.

(** A number literal: an optional minus sign; an integer part, [0] or a
    non-zero digit and more digits; an optional fraction, a dot and at
    least one digit; an optional exponent, [e] or [E], an optional sign and
    at least one digit.  With a fraction or an exponent it is a [float],
    otherwise an [int]. *)
Definition match_number (s : str) : pres json :=
  let '(neg, s1) :=
    match s with
    | c :: s' => if (c =? chr "-")%N then (true, s') else (false, s)
    | [] => (false, s)
    end in
  match s1 with
  | [] => PErr
  | c :: s2 =>
      if is_digit c then
        let '(ip, s3) :=
          if (c =? chr "0")%N then ([c], s2) else span_digits s1 in
        let '(fp, s4) :=
          match s3 with
          | p :: d :: _ =>
              if (p =? chr ".")%N && is_digit d
              then let (fs, r) := span_digits (skipn 1 s3) in (Some fs, r)
              else (None, s3)
          | _ => (None, s3)
          end in
        let '(ep, s5) :=
          match s4 with
          | e :: s4' =>
              if ((e =? chr "e") || (e =? chr "E"))%N then
                let '(eneg, s4'') :=
                  match s4' with
                  | g :: r =>
                      if (g =? chr "-")%N then (true, r)
                      else if (g =? chr "+")%N then (false, r)
                      else (false, s4')
                  | [] => (false, s4')
                  end in
                let (es, r) := span_digits s4'' in
                match es with
                | [] => (None, s4)
                | _ => (Some (if eneg then - digits_value es
                              else digits_value es), r)
                end
              else (None, s4)
          | [] => (None, s4)
          end in
        match fp, ep with
        | None, None =>
            POk (JInt (if neg then - digits_value ip else digits_value ip)) s5
        | _, _ =>
            let fs := match fp with Some fs => fs | None => [] end in
            let e := match ep with Some e => e | None => 0 end in
            POk (JFloat (FDec neg (digits_value (ip ++ fs)) (e - len fs))) s5
        end
      else PErr
  end.

(** [scan_once], with the loops over the items of an array and of an
    object. *)
Fixpoint scan_once (fuel : nat) (s : str) {struct fuel} : pres json :=
  match fuel with
  | O => PFuel
  | S fuel' =>
      match s with
      | [] => PErr
      | c :: s1 =>
          if (c =? dquote)%N then
            match scanstring (S (List.length s1)) s1 [] with
            | POk v r => POk (JStr v) r
            | PErr => PErr
            | PFuel => PFuel
            end
          else if (c =? chr "{")%N then
            match skip_ws s1 with
            | [] => PErr
            | d :: s2 =>
                if (d =? chr "}")%N then POk (JDict []) s2
                else object_items fuel' (d :: s2) []
            end
          else if (c =? chr "[")%N then
            match skip_ws s1 with
            | [] => PErr
            | d :: s2 =>
                if (d =? chr "]")%N then POk (JList []) s2
                else array_items fuel' (d :: s2) []
            end
          else if starts_with (str_of "null") s then POk JNull (skipn 4 s)
          else if starts_with (str_of "true") s then POk (JBool true) (skipn 4 s)
          else if starts_with (str_of "false") s then POk (JBool false) (skipn 5 s)
          else if starts_with (str_of "NaN") s then POk (JFloat FNaN) (skipn 3 s)
          else if starts_with (str_of "Infinity") s
               then POk (JFloat (FInf false)) (skipn 8 s)
          else if starts_with (str_of "-Infinity") s
               then POk (JFloat (FInf true)) (skipn 9 s)
          else match_number s
      end
  end

with array_items (fuel : nat) (s : str) (acc : list json) {struct fuel}
  : pres json :=
  match fuel with
  | O => PFuel
  | S fuel' =>
      match scan_once fuel' s with
      | POk v r =>
          match skip_ws r with
          | [] => PErr
          | c :: r1 =>
              if (c =? chr "]")%N then POk (JList (acc ++ [v])) r1
              else if (c =? chr ",")%N
                   then array_items fuel' (skip_ws r1) (acc ++ [v])
              else PErr
          end
      | PErr => PErr
      | PFuel => PFuel
      end
  end

with object_items (fuel : nat) (s : str) (acc : list (str * json))
  {struct fuel} : pres json :=
  match fuel with
  | O => PFuel
  | S fuel' =>
      match s with
      | [] => PErr
      | c :: s1 =>
          if (c =? dquote)%N then
            match scanstring (S (List.length s1)) s1 [] with
            | POk key r =>
                match skip_ws r with
                | [] => PErr
                | d :: r1 =>
                    if (d =? chr ":")%N then
                      match scan_once fuel' (skip_ws r1) with
                      | POk v r2 =>
                          match skip_ws r2 with
                          | [] => PErr
                          | e :: r3 =>
                              if (e =? chr "}")%N
                              then POk (JDict (dict_set acc key v)) r3
                              else if (e =? chr ",")%N
                              then object_items fuel' (skip_ws r3)
                                     (dict_set acc key v)
                              else PErr
                          end
                      | PErr => PErr
                      | PFuel => PFuel
                      end
                    else PErr
                end
            | PErr => PErr
            | PFuel => PFuel
            end
          else PErr
      end
  end.

(** [json.loads(s)]: [None] stands for [json.JSONDecodeError].  The
    decoder's other failures, a [ValueError] on an integer literal of more
    than 4300 digits and a [RecursionError] on deep nesting, are not
    modelled: [decodable] below delimits the texts without them. *)
Definition json_loads (s : str) : option json :=
  match scan_once (S (2 * List.length s)) (skip_ws s) with
  | POk v r => match skip_ws r with [] => Some v | _ => None end
  | _ => None
  end.

(** ** Regular expressions

    The patterns of [_process_single_chunk] use literals, the classes [\s]
    and [[\s\S]], greedy and lazy stars over a class, and one capture
    group.  [rmatch] is a backtracking matcher with the priorities of
    [re]: a greedy star tries the longest repetition first, a lazy star the
    shortest. *)

Inductive cset :=
| Space   (* \s *)
| Any.    (* [\s\S] *)

Inductive regex :=
| Lit (c : char)
| Star (cs : cset) (greedy : bool)
| Cat (r1 r2 : regex)
| Group (r : regex).

(** The characters [\s] matches in a [str] pattern. *)
Definition is_space (c : char) : bool :=
  (((9 <=? c) && (c <=? 13)) || ((28 <=? c) && (c <=? 32))
   || (c =? 133) || (c =? 160) || (c =? 5760)
   || ((8192 <=? c) && (c <=? 8202))
   || (c =? 8232) || (c =? 8233) || (c =? 8239) || (c =? 8287)
   || (c =? 12288))%N.

Definition in_cset (cs : cset) (c : char) : bool :=
  match cs with
  | Space => is_space c
  | Any => true
  end.

Definition or_else {A : Type} (a b : option A) : option A :=
  match a with
  | Some _ => a
  | None => b
  end.

Fixpoint star_greedy {A : Type} (p : char -> bool) (s : str)
    (k : str -> option A) : option A :=
  match s with
  | c :: s' => if p c then or_else (star_greedy p s' k) (k s) else k s
  | [] => k s
  end.

Fixpoint star_lazy {A : Type} (p : char -> bool) (s : str)
    (k : str -> option A) : option A :=
  or_else (k s)
    match s with
    | c :: s' => if p c then star_lazy p s' k else None
    | [] => None
    end.

(** The part of [s] consumed when [rest] is what remains of it. *)
Definition consumed (s rest : str) : str :=
  firstn (List.length s - List.length rest) s.

(** [rmatch r s g k]: match [r] at the start of [s], with [g] the text of
    group 1 so far, and continue with [k] on what remains. *)
Fixpoint rmatch {A : Type} (r : regex) (s : str) (g : option str)
    (k : str -> option str -> option A) : option A :=
  match r with
  | Lit c =>
      match s with
      | x :: s' => if (x =? c)%N then k s' g else None
      | [] => None
      end
  | Star cs true => star_greedy (in_cset cs) s (fun s' => k s' g)
  | Star cs false => star_lazy (in_cset cs) s (fun s' => k s' g)
  | Cat r1 r2 => rmatch r1 s g (fun s' g' => rmatch r2 s' g' k)
  | Group r1 => rmatch r1 s g (fun s' _ => k s' (Some (consumed s s')))
  end.

(** A match object: [group(0)] and [group(1)]. *)
Record re_match := { group0 : str; group1 : option str }.

Definition match_at (r : regex) (s : str) : option re_match :=
  rmatch r s None
    (fun rest g => Some {| group0 := consumed s rest; group1 := g |}).

(** [re.search(r, s)]: the match at the leftmost position that has one. *)
Fixpoint re_search (r : regex) (s : str) : option re_match :=
  or_else (match_at r s)
    match s with
    | _ :: s' => re_search r s'
    | [] => None
    end.

(** The literal characters of [s], in sequence, then [r]. *)
Fixpoint lits (s : str) (r : regex) : regex :=
  match s with
  | [] => r
  | c :: s' => Cat (Lit c) (lits s' r)
  end.

Definition fence : str := str_of "```".
Definition json_fence : str := str_of "```json".

(** [```json\s*([\s\S]*?)\s*```] *)
Definition re_json_fence : regex :=
  lits json_fence
    (Cat (Star Space true)
      (Cat (Group (Star Any false))
        (Cat (Star Space true)
          (Cat (Lit (chr "`")) (Cat (Lit (chr "`")) (Lit (chr "`"))))))).

(** [```\s*([\s\S]*?)\s*```] *)
Definition re_any_fence : regex :=
  lits fence
    (Cat (Star Space true)
      (Cat (Group (Star Any false))
        (Cat (Star Space true)
          (Cat (Lit (chr "`")) (Cat (Lit (chr "`")) (Lit (chr "`"))))))).

(** An object whose first key is [paragraphs], up to the first closing
    bracket that is followed by a closing brace:
    an opening brace, [\s*], the quoted word [paragraphs], [\s*], a colon,
    [\s*], an opening bracket, [[\s\S]*?], a closing bracket, [\s*], a
    closing brace. *)
Definition re_paragraphs_object : regex :=
  Cat (Lit (chr "{"))
    (Cat (Star Space true)
      (Cat (Lit dquote)
        (lits (str_of "paragraphs")
          (Cat (Lit dquote)
            (Cat (Star Space true)
              (Cat (Lit (chr ":"))
                (Cat (Star Space true)
                  (Cat (Lit (chr "["))
                    (Cat (Star Any false)
                      (Cat (Lit (chr "]"))
                        (Cat (Star Space true) (Lit (chr "}"))))))))))))).

(** From an opening brace to the last closing brace: an opening brace,
    a greedy [[\s\S]*], a closing brace. *)
Definition re_any_object : regex :=
  Cat (Lit (chr "{")) (Cat (Star Any true) (Lit (chr "}"))).

(** ** Exceptions and outcomes *)

(** The exceptions of the service, one constructor per [raise]; the fields
    are the values the message is formatted from. *)
Inductive exn :=
| ApiKeyNotConfigured                                (* process_book_text *)
| ApiCallFailed (msg : str)                          (* the backend call *)
| EmptyResponse (model : str) (finish_reason : str)  (* empty completion *)
| NoJsonExtracted (sub_index : Z)                    (* no candidate *)
| InvalidFormat (sub_index : Z)                      (* no paragraphs array *)
| AttributeError                                     (* [.get] on a non-dict *)
| ChunkFailed (sub_index sub_total : Z) (cause : exn).

Inductive outcome (A : Type) :=
| Return (a : A)
| Raise (e : exn)
| Diverge.
Arguments Return {A} a.
Arguments Raise {A} e.
Arguments Diverge {A}.

(** ** Prompt Builder *)

Definition nl : char := 10%N.

(** [str(n)] *)
Definition str_of_int (n : Z) : str :=
  str_of (DecimalString.NilZero.string_of_int (Z.to_int n)).

(** The template of the prompt up to the position of the chunk. *)
Definition prompt_head : str :=
  concat [
    str_of "You are a text processing assistant. Analyze the following book text and extract all paragraphs."; [nl];
    [nl];
    str_of "CRITICAL REQUIREMENTS - FOLLOW EXACTLY:"; [nl];
    str_of "1. Each paragraph MUST be between 3-7 sentences (NO MORE, NO LESS)"; [nl];
    str_of "2. NEVER create single-word or single-sentence paragraphs"; [nl];
    str_of "3. NEVER create paragraphs longer than 7 sentences"; [nl];
    str_of "4. Count sentences carefully - a sentence ends with . ! or ?"; [nl];
    str_of "5. If dialogue is short, combine multiple exchanges into one paragraph (up to 7 sentences)"; [nl];
    str_of "6. Preserve the original text exactly (no summarization or modification)"; [nl];
    str_of "7. Skip empty lines, page numbers, headers, footers, chapter titles"; [nl];
    str_of "8. Do NOT include table of contents, index, or chapter listings"; [nl];
    str_of "9. Skip prefaces and forewords if not part of main narrative"; [nl];
    str_of "10. Split very long paragraphs into multiple smaller ones (3-7 sentences each)"; [nl];
    [nl];
    str_of "PARAGRAPH SIZE RULES:"; [nl];
    str_of "- Minimum: 3 sentences"; [nl];
    str_of "- Maximum: 7 sentences"; [nl];
    str_of "- Target: 4-6 sentences per paragraph"; [nl];
    str_of "- If original paragraph is 15 sentences, split it into 3 paragraphs of 5 sentences each"; [nl];
    [nl];
    str_of "Return ONLY a valid JSON object in this exact format with no additional text:"; [nl];
    str_of "{"; [nl];
    str_of "  "; [dquote]; str_of "paragraphs"; [dquote]; str_of ": ["; [nl];
    str_of "    "; [dquote]; str_of "First paragraph text here..."; [dquote]; str_of ","; [nl];
    str_of "    "; [dquote]; str_of "Second paragraph text here..."; [dquote]; [nl];
    str_of "  ]"; [nl];
    str_of "}"; [nl];
    [nl];
    str_of "Book text (Chunk "
  ].

(** The prompt of [_process_single_chunk]. *)
Definition build_prompt (book_text : str) (sub_index sub_total : Z) : str :=
  prompt_head ++ str_of_int sub_index ++ str_of "/" ++ str_of_int sub_total
    ++ str_of "):" ++ [nl] ++ book_text.

(** ** Response Recoverer: the stages of [_process_single_chunk] after the
    backend call *)

(** The guard before parsing (line 142): the text has no opening brace or
    lacks the word [paragraphs]. *)
Definition narrative_gate (text_content : str) : bool :=
  negb (contains (str_of "{") text_content)
  || negb (contains (str_of "paragraphs") text_content).

(** The text inside a fenced code block, when the response has one
    (lines 157 to 171). *)
Definition strip_fences (text_content : str) : str :=
  if contains json_fence text_content then
    match re_search re_json_fence text_content with
    | Some m => match group1 m with Some g => g | None => text_content end
    | None => text_content
    end
  else if contains fence text_content then
    match re_search re_any_fence text_content with
    | Some m => match group1 m with Some g => g | None => text_content end
    | None => text_content
    end
  else text_content.

(** The candidate object (lines 177 to 181): the structured pattern
    first, any braces otherwise. *)
Definition find_json_object (json_text : str) : option re_match :=
  or_else (re_search re_paragraphs_object json_text)
          (re_search re_any_object json_text).

(** Closing brackets, then closing braces, appended where opening ones
    outnumber them (lines 195 to 198). *)
Definition repair_brackets (json_str : str) : str :=
  let s1 :=
    if count_char (chr "]") json_str <? count_char (chr "[") json_str
    then json_str ++ repeat_char (chr "]")
           (count_char (chr "[") json_str - count_char (chr "]") json_str)
    else json_str in
  if count_char (chr "}") s1 <? count_char (chr "{") s1
  then s1 ++ repeat_char (chr "}")
         (count_char (chr "{") s1 - count_char (chr "}") s1)
  else s1.

(** The final check on the parsed value (lines 209 to 212):
    [not parsed_response], then [not parsed_response.get('paragraphs')],
    which only a [dict] has, then [isinstance(..., list)]. *)
Definition check_format (sub_index : Z) (parsed_response : json)
  : outcome (list json) :=
  if negb (truthy parsed_response) then Raise (InvalidFormat sub_index)
  else
    match parsed_response with
    | JDict d =>
        match dict_get d (str_of "paragraphs") with
        | None => Raise (InvalidFormat sub_index)
        | Some v =>
            if negb (truthy v) then Raise (InvalidFormat sub_index)
            else
              match v with
              | JList l => Return l
              | _ => Raise (InvalidFormat sub_index)
              end
        end
    | _ => Raise AttributeError
    end.

(** The stages after a failed direct parse: the handler of
    [json.JSONDecodeError] (lines 153 to 207).  The [print] calls of the
    handler (lines 154, 155, 184, 203 to 205) are left out: they write the
    completion text, and fail with [UnicodeEncodeError] on a text that is
    not [printable]. *)
Definition parse_after_extraction (sub_index : Z) (text_content : str)
  : outcome (list json) :=
  let json_text := strip_fences text_content in
  match find_json_object json_text with
  | None =>
      match text_content with
      | [] => Raise (NoJsonExtracted sub_index)
      | _ :: _ => Return []
      end
  | Some json_object_match =>
      match json_loads (repair_brackets (group0 json_object_match)) with
      | Some parsed_response => check_format sub_index parsed_response
      | None => Return []
      end
  end.

(** Direct parse (line 152), then the recovery stages. *)
Definition parse_stages (sub_index : Z) (text_content : str)
  : outcome (list json) :=
  match json_loads text_content with
  | Some parsed_response => check_format sub_index parsed_response
  | None => parse_after_extraction sub_index text_content
  end.

(** From the completion text to the paragraph list (lines 135 to 212):
    the empty-response check, the gate, the parse stages.  The finish
    reason is only printed, and quoted in the empty-response message. *)
Definition recover_paragraphs (model : str) (sub_index : Z)
    (text_content finish_reason : str) : outcome (list json) :=
  match text_content with
  | [] => Raise (EmptyResponse model finish_reason)
  | _ :: _ =>
      if narrative_gate text_content then Return []
      else parse_stages sub_index text_content
  end.

(** ** The service *)

Record OpenAIService := { api_key : str; model : str }.

(** The request of one backend call. *)
Record request := {
  req_model : str;
  req_prompt : str;
  max_completion_tokens : Z;
  timeout : Z
}.

(** What the call gives: an exception with its message, or a completion
    with the content and the finish reason of its first choice (a
    completion has one). *)
Inductive api_response :=
| ApiError (msg : str)
| Completion (content : option str) (finish_reason : str).

Record AggregateResult := {
  status : str;
  paragraphs : list json;
  total_paragraphs : Z
}.

(** The request [_process_single_chunk] sends for a sub-chunk. *)
Definition chunk_request (self : OpenAIService) (book_text : str)
    (sub_index sub_total : Z) : request :=
  {| req_model := model self;
     req_prompt := build_prompt book_text sub_index sub_total;
     max_completion_tokens := 16000;
     timeout := 180 |}.

(** The requests for the sub-chunks [text_chunks], numbered from
    [sub_index]. *)
Fixpoint requests_from (self : OpenAIService) (text_chunks : list str)
    (sub_index sub_total : Z) : list request :=
  match text_chunks with
  | [] => []
  | c :: rest =>
      chunk_request self c sub_index sub_total
      :: requests_from self rest (sub_index + 1) sub_total
  end.

Section Service.

(** The backend: a state and the effect of one call on it. *)
Variable backend : Type.
Variable create : backend -> request -> api_response * backend.

(** The backend and the requests sent so far, oldest first. *)
Record world := { backend_state : backend; calls : list request }.

Definition M (A : Type) : Type := world -> outcome A * world.

Definition ret {A : Type} (a : A) : M A := fun w => (Return a, w).

Definition raise {A : Type} (e : exn) : M A := fun w => (Raise e, w).

Definition bind {A B : Type} (m : M A) (f : A -> M B) : M B :=
  fun w =>
    match m w with
    | (Return a, w') => f a w'
    | (Raise e, w') => (Raise e, w')
    | (Diverge, w') => (Diverge, w')
    end.

(** [try: m except Exception as e: h e] *)
Definition try_except {A : Type} (m : M A) (h : exn -> M A) : M A :=
  fun w =>
    match m w with
    | (Raise e, w') => h e w'
    | r => r
    end.

Definition lift {A : Type} (o : outcome A) : M A := fun w => (o, w).

(** [self.client.chat.completions.create]: the backend answers and the
    request is logged. *)
Definition chat_completions_create (r : request) : M api_response :=
  fun w =>
    let (resp, b) := create (backend_state w) r in
    (Return resp, {| backend_state := b; calls := calls w ++ [r] |}).

(** One sub-chunk: the call, wrapped when it fails (line 127), the
    recoverer on the content (the empty text when there is none), and the
    outer handler that wraps every exception with the position of the
    sub-chunk (line 219). *)
Definition _process_single_chunk (self : OpenAIService) (book_text : str)
    (chunk_index total_chunks sub_index sub_total : Z) : M (list json) :=
  try_except
    (bind (chat_completions_create
             (chunk_request self book_text sub_index sub_total))
       (fun completion =>
          match completion with
          | ApiError msg => raise (ApiCallFailed msg)
          | Completion content finish_reason =>
              let text_content :=
                match content with Some t => t | None => [] end in
              lift (recover_paragraphs (model self) sub_index
                      text_content finish_reason)
          end))
    (fun e => raise (ChunkFailed sub_index sub_total e)).

(** The [for] loop of [process_book_text], from sub-chunk
    [sub_chunk_index] on. *)
Fixpoint process_chunks (self : OpenAIService) (text_chunks : list str)
    (chunk_index total_chunks sub_chunk_index sub_total : Z)
    (all_paragraphs : list json) : M (list json) :=
  match text_chunks with
  | [] => ret all_paragraphs
  | text_chunk :: rest =>
      bind (_process_single_chunk self text_chunk chunk_index total_chunks
              sub_chunk_index sub_total)
        (fun paragraphs =>
           process_chunks self rest chunk_index total_chunks
             (sub_chunk_index + 1) sub_total (all_paragraphs ++ paragraphs))
  end.

(** The orchestrator: the key check, the chunks of 100000 characters,
    the loop, the aggregate. *)
Definition process_book_text (self : OpenAIService) (book_text : str)
    (chunk_index total_chunks : Z) : M AggregateResult :=
  match api_key self with
  | [] => raise ApiKeyNotConfigured
  | _ :: _ =>
      let chunk_size := 100000 in
      match _chunk_book_text book_text chunk_size with
      | None => fun w => (Diverge, w)
      | Some text_chunks =>
          bind (process_chunks self text_chunks chunk_index total_chunks
                  1 (len text_chunks) [])
            (fun all_paragraphs =>
               ret {| status := str_of "success";
                      paragraphs := all_paragraphs;
                      total_paragraphs := len all_paragraphs |})
      end
  end.

(** [chunks_return self ci tc n i chunks w ls w']: from the world [w],
    the sub-chunks [chunks], numbered from [i], each return a paragraph
    list; [ls] are these lists in order and [w'] is the world after the
    last of them. *)
Inductive chunks_return (self : OpenAIService)
    (chunk_index total_chunks sub_total : Z)
  : Z -> list str -> world -> list (list json) -> world -> Prop :=
| chunks_return_nil : forall i w,
    chunks_return self chunk_index total_chunks sub_total i [] w [] w
| chunks_return_cons : forall i c rest w l w1 ls w2,
    _process_single_chunk self c chunk_index total_chunks i sub_total w
    = (Return l, w1) ->
    chunks_return self chunk_index total_chunks sub_total
      (i + 1) rest w1 ls w2 ->
    chunks_return self chunk_index total_chunks sub_total
      i (c :: rest) w (l :: ls) w2.

End Service.

Arguments backend_state {backend} w.
Arguments calls {backend} w.
Arguments Build_world {backend} backend_state calls.
Arguments ret {backend A} a w.
Arguments raise {backend A} e w.
Arguments bind {backend A B} m f w.
Arguments try_except {backend A} m h w.
Arguments lift {backend A} o w.
Arguments chat_completions_create {backend} create r w.
Arguments _process_single_chunk {backend} create self book_text
  chunk_index total_chunks sub_index sub_total w.
Arguments process_chunks {backend} create self text_chunks
  chunk_index total_chunks sub_chunk_index sub_total all_paragraphs w.
Arguments process_book_text {backend} create self book_text
  chunk_index total_chunks w.
Arguments chunks_return {backend} create self
  chunk_index total_chunks sub_total _ _ _ _ _.

(** ** Notions the statements use *)

(** What the loop of the chunker appends from position [k] of [text] on:
    the windows [rest] cover the text from [k], all but the last are full,
    and the last holds what is left. *)
Record windows_from (text : str) (chunk_size : Z) (k : nat)
    (rest : list str) : Prop := {
  wf_concat : concat rest = skipn k text;
  wf_empty : (List.length text <= k)%nat -> rest = [];
  wf_nonempty : (k < List.length text)%nat -> rest <> [];
  wf_full : forall j c, (S j < List.length rest)%nat ->
              nth_error rest j = Some c -> len c = chunk_size;
  wf_last : forall c, last_error rest = Some c ->
              len c = (len text - Z.of_nat k - 1) mod chunk_size + 1
}.

(** [sub] occurs in [s]. *)
Definition Substring (sub s : str) : Prop :=
  exists pre post, s = pre ++ sub ++ post.

(** The value the final check receives, when a parse succeeds: that of the
    direct parse, or that of the repaired candidate. *)
Definition final_parse (text_content : str) : option json :=
  match json_loads text_content with
  | Some parsed_response => Some parsed_response
  | None =>
      match find_json_object (strip_fences text_content) with
      | Some m => json_loads (repair_brackets (group0 m))
      | None => None
      end
  end.

(** ** Sample inputs *)

(** [s] between double quotes *)
Definition quoted (s : string) : str := [dquote] ++ str_of s ++ [dquote].

(** An object with an empty [paragraphs] array *)
Definition empty_paragraphs_text : str :=
  str_of "{" ++ quoted "paragraphs" ++ str_of ": []}".

(** An object whose [paragraphs] array holds a number *)
Definition number_paragraphs_text : str :=
  str_of "{" ++ quoted "paragraphs" ++ str_of ": [1]}".

(** A well-formed response with two paragraphs *)
Definition two_paragraphs_text : str :=
  str_of "{" ++ quoted "paragraphs" ++ str_of ": ["
    ++ quoted "a" ++ str_of "," ++ quoted "b" ++ str_of "]}".

(** The same response cut before its closing bracket and brace *)
Definition truncated_text : str :=
  str_of "{" ++ quoted "paragraphs" ++ str_of ": ["
    ++ quoted "a" ++ str_of "," ++ quoted "b".

(** An object whose [paragraphs] field is a number *)
Definition scalar_paragraphs_text : str :=
  str_of "{" ++ quoted "paragraphs" ++ str_of ": 7}".

(** The well-formed response inside a fenced block, after a sentence *)
Definition fenced_text : str :=
  str_of "Here you go:" ++ [nl] ++ json_fence ++ [nl]
    ++ two_paragraphs_text ++ [nl] ++ fence.

(** An empty object *)
Definition braces_text : str := str_of "{}".

(** A response without any JSON *)
Definition plain_text : str :=
  str_of "This chunk contains only a table of contents.".

Definition gpt : OpenAIService :=
  {| api_key := str_of "sk-test"; model := str_of "gpt-4o" |}.

(** A backend that answers the calls, in order, with the responses it
    holds, and fails once it has none left. *)
Definition scripted (b : list api_response) (r : request)
  : api_response * list api_response :=
  match b with
  | resp :: b' => (resp, b')
  | [] => (ApiError (str_of "no response scripted"), [])
  end.

Definition script (b : list api_response) : world (list api_response) :=
  {| backend_state := b; calls := [] |}.

(** A short book, of one chunk *)
Definition abc : str := str_of "abc".

(** A well-formed response with one paragraph *)
Definition one_paragraph_text : str :=
  str_of "{" ++ quoted "paragraphs" ++ str_of ": [" ++ quoted "c"
    ++ str_of "]}".

Definition answer (text : str) : api_response :=
  Completion (Some text) (str_of "stop").

(** The world after the only request for [abc] was answered. *)
Definition after_abc : world (list api_response) :=
  {| backend_state := []; calls := [chunk_request gpt abc 1 1] |}.

(** Three sub-chunks *)
Definition three_chunks : list str :=
  [str_of "one"; str_of "two"; str_of "three"].

(** ** Notions of the further properties *)

(** [s'] is what remains of [s] after a prefix. *)
Definition Suffix (s' s : str) : Prop := exists p, s = p ++ s'.

(** The literal a pattern ends with, if it ends with one. *)
Fixpoint last_lit (r : regex) : option char :=
  match r with
  | Lit c => Some c
  | Cat _ r2 => last_lit r2
  | _ => None
  end.

(** The literal a pattern starts with, if it starts with one. *)
Definition first_lit (r : regex) : option char :=
  match r with
  | Lit c => Some c
  | Cat (Lit c) _ => Some c
  | _ => None
  end.

(** The closing fence of the two fence patterns. *)
Definition ticks : regex :=
  Cat (Lit (chr "`")) (Cat (Lit (chr "`")) (Lit (chr "`"))).

(** What the two fence patterns have after their opening fence: [\s*],
    the group, [\s*], the closing fence. *)
Definition fence_body : regex :=
  Cat (Star Space true)
    (Cat (Group (Star Any false)) (Cat (Star Space true) ticks)).

(** The causes a sub-chunk fails with. *)
Definition chunk_failure (self : OpenAIService) (i : Z) (cause : exn)
  : Prop :=
  (exists msg, cause = ApiCallFailed msg)
  \/ (exists fr, cause = EmptyResponse (model self) fr)
  \/ cause = InvalidFormat i
  \/ cause = AttributeError.

(** The characters of a printed integer: digits and the minus sign. *)
Definition numeral_char (c : char) : bool :=
  is_digit c || (c =? chr "-")%N.

(** The sentence before the fence of [fenced_text]. *)
Definition fenced_prefix : str := str_of "Here you go:" ++ [nl].

(** The match of the structured pattern on the well-formed response. *)
Definition two_paragraphs_match : re_match :=
  {| group0 := two_paragraphs_text; group1 := None |}.

(** ** A book of three chunks *)

(** A book of 200001 characters: two full chunks and one of a single
    character. *)
Definition part_a : str := repeat (chr "a") (Z.to_nat 100000).
Definition part_b : str := repeat (chr "b") (Z.to_nat 100000).
Definition part_c : str := [chr "c"].
Definition long_book : str := part_a ++ part_b ++ part_c.
Definition long_chunks : list str := [part_a; part_b; part_c].

(** Equality of two results of the chunker, as a test. *)
Definition chunks_eqb (a b : option (list str)) : bool :=
  match a, b with
  | Some x, Some y =>
      if list_eq_dec (list_eq_dec N.eq_dec) x y then true else false
  | None, None => true
  | _, _ => false
  end.

(** A well-formed response with the one paragraph [d] *)
Definition d_paragraph_text : str :=
  str_of "{" ++ quoted "paragraphs" ++ str_of ": [" ++ quoted "d"
    ++ str_of "]}".

(** Three answers with different paragraphs, and the lists they hold. *)
Definition three_answers : list api_response :=
  [answer two_paragraphs_text; answer one_paragraph_text;
   answer d_paragraph_text].

Definition three_lists : list (list json) :=
  [[JStr (str_of "a"); JStr (str_of "b")];
   [JStr (str_of "c")];
   [JStr (str_of "d")]].

(** The world after the three chunks of the long book were answered. *)
Definition long_sent : world (list api_response) :=
  {| backend_state := [];
     calls := requests_from gpt long_chunks 1 (len long_chunks) |}.

(** Answers of which the second is a failed call. *)
Definition failing_answers : list api_response :=
  [answer two_paragraphs_text; ApiError (str_of "quota");
   answer d_paragraph_text].

(** The world after the first chunk of the long book was answered, with
    [rest] the answers left. *)
Definition long_first_sent (rest : list api_response)
  : world (list api_response) :=
  {| backend_state := rest;
     calls := [] ++ [chunk_request gpt part_a 1 (len long_chunks)] |}.

(** The world after the call for the second chunk, which failed: the
    answer for the third chunk is still there. *)
Definition long_failed : world (list api_response) :=
  {| backend_state := [answer d_paragraph_text];
     calls := ([] ++ [chunk_request gpt part_a 1 (len long_chunks)])
              ++ [chunk_request gpt part_b (1 + len [part_a])
                    (len long_chunks)] |}.

(** ** Where the model of the libraries is exact

    [json_loads] stands for a [json.loads] that fails with
    [json.JSONDecodeError] only, and the [print] calls are left out.  The
    interpreter has more: [int] refuses a literal of more than 4300 digits
    ([ValueError]), the scanner gives up on nesting deeper than the
    recursion limit allows ([RecursionError]), and [print] refuses a lone
    surrogate on a strict UTF-8 output ([UnicodeEncodeError]).  The
    predicates below keep to the texts on which none of this happens. *)

(** A surrogate code point, U+D800 to U+DFFF. *)
Definition surrogate (c : char) : bool := ((55296 <=? c) && (c <=? 57343))%N.

(** A text [print] accepts. *)
Definition printable (s : str) : bool :=
  forallb (fun c => negb (surrogate c)) s.

(** No run of more than [limit] digits, [run] digits being already read. *)
Fixpoint digit_runs_within (limit run : Z) (s : str) : bool :=
  match s with
  | [] => true
  | c :: s' =>
      if is_digit c
      then (run + 1 <=? limit) && digit_runs_within limit (run + 1) s'
      else digit_runs_within limit 0 s'
  end.

(** The digits [int] accepts in a literal. *)
Definition max_str_digits : Z := 4300.

(** A nesting depth the scanner always has room for under the default
    recursion limit of 1000. *)
Definition nesting_allowance : Z := 100.

(** A text on which [json.loads] returns or fails with
    [json.JSONDecodeError]: no integer literal is too long and there are
    not enough opening brackets and braces to nest too deep. *)
Definition decodable (s : str) : bool :=
  digit_runs_within max_str_digits 0 s
  && (count_char (chr "[") s + count_char (chr "{") s <=? nesting_allowance).

Definition tame (s : str) : bool := printable s && decodable s.

(** A response of the backend whose texts are tame. *)
Definition tame_response (r : api_response) : bool :=
  match r with
  | ApiError msg => printable msg
  | Completion content finish_reason =>
      printable finish_reason
      && match content with Some t => tame t | None => true end
  end.

(** A backend whose responses are tame from every state [good] holds of,
    and which stays among these states. *)
Definition keeps_tame {backend : Type}
    (create : backend -> request -> api_response * backend)
    (good : backend -> Prop) : Prop :=
  forall b r,
    good b ->
    tame_response (fst (create b r)) = true /\ good (snd (create b r)).

(** The scripts of tame responses. *)
Definition all_tame (b : list api_response) : Prop :=
  Forall (fun r => tame_response r = true) b.

(** * Properties *)

(** ** Chunker *)

Lemma last_window_length (n cs : Z) :
  0 < cs -> 0 < n ->
  (n - 1) mod cs + 1 = if n mod cs =? 0 then cs else n mod cs.
Proof.
  intros Hcs Hn.
  pose proof (Z.div_mod n cs ltac:(lia)) as Hdiv.
  pose proof (Z.mod_pos_bound n cs Hcs) as Hb.
  destruct (Z.eqb_spec (n mod cs) 0) as [Hz|Hz].
  - rewrite Hz in Hdiv.
    rewrite <- (Z.mod_unique (n - 1) cs (n / cs - 1) (cs - 1)); lia.
  - rewrite <- (Z.mod_unique (n - 1) cs (n / cs) (n mod cs - 1)); lia.
Qed.

(** More fuel does not change a result. *)
Lemma chunk_loop_more_fuel (text : str) (chunk_size : Z) :
  forall fuel fuel' chunks i result,
    chunk_loop fuel text chunk_size chunks i = Some result ->
    (fuel <= fuel')%nat ->
    chunk_loop fuel' text chunk_size chunks i = Some result.
Proof.
  induction fuel as [|fuel IH]; intros fuel' chunks i result Hrun Hle.
  - simpl in Hrun. destruct fuel'; simpl;
      destruct (i <? len text); congruence.
  - destruct fuel' as [|fuel']; [exfalso; lia|].
    simpl in *. destruct (i <? len text); [|exact Hrun].
    apply IH; [exact Hrun | lia].
Qed.

Section ChunkerFacts.

Variable text : str.
Variable chunk_size : Z.
Hypothesis chunk_size_pos : 0 < chunk_size.

(** Inside the text, the slice of a window is the next [chunk_size]
    characters, or what is left of the text. *)
Lemma window_slice (k : nat) :
  (k < List.length text)%nat ->
  py_slice text (Z.of_nat k) (Z.of_nat k + chunk_size)
  = firstn (Z.to_nat chunk_size) (skipn k text).
Proof.
  intros Hk. unfold py_slice, clamp_index, len.
  destruct (Z.ltb_spec (Z.of_nat k) 0); [exfalso; lia|].
  destruct (Z.ltb_spec (Z.of_nat k + chunk_size) 0); [exfalso; lia|].
  rewrite (Z.min_l (Z.of_nat k)) by lia. rewrite Nat2Z.id.
  destruct (Z.le_ge_cases (Z.of_nat k + chunk_size)
              (Z.of_nat (List.length text))).
  - rewrite Z.min_l by lia. f_equal. lia.
  - rewrite Z.min_r by lia.
    rewrite !firstn_all2; auto; rewrite length_skipn; lia.
Qed.

Lemma window_length (k : nat) :
  (k < List.length text)%nat ->
  len (firstn (Z.to_nat chunk_size) (skipn k text))
  = Z.min chunk_size (len text - Z.of_nat k).
Proof.
  intros Hk. unfold len. rewrite length_firstn, length_skipn. lia.
Qed.

Lemma windows_done (k : nat) :
  (List.length text <= k)%nat -> windows_from text chunk_size k [].
Proof.
  intros Hk. split; simpl.
  - symmetry. apply skipn_all2. exact Hk.
  - reflexivity.
  - intros Hlt. exfalso. lia.
  - intros j c Hj. exfalso. lia.
  - discriminate.
Qed.

Lemma chunk_loop_windows :
  forall fuel chunks k,
    (List.length text - k <= fuel)%nat ->
    exists rest,
      chunk_loop fuel text chunk_size chunks (Z.of_nat k)
      = Some (chunks ++ rest)
      /\ windows_from text chunk_size k rest.
Proof.
  induction fuel as [|fuel IH]; intros chunks k Hfuel.
  - exists []. simpl.
    destruct (Z.ltb_spec (Z.of_nat k) (len text)) as [H|H];
      [unfold len in H; exfalso; lia|].
    rewrite app_nil_r. split; [reflexivity|].
    unfold len in H. apply windows_done. lia.
  - simpl.
    destruct (Z.ltb_spec (Z.of_nat k) (len text)) as [H|H]; unfold len in H.
    + rewrite window_slice by lia.
      set (chunk := firstn (Z.to_nat chunk_size) (skipn k text)).
      replace (Z.of_nat k + chunk_size)
        with (Z.of_nat (k + Z.to_nat chunk_size)) by lia.
      destruct (IH (chunks ++ [chunk]) (k + Z.to_nat chunk_size)%nat)
        as [rest [Hrun Hw]]; [lia|].
      exists (chunk :: rest). rewrite Hrun, <- app_assoc.
      split; [reflexivity|].
      assert (Hlen : len chunk = Z.min chunk_size (len text - Z.of_nat k))
        by (apply window_length; lia).
      destruct Hw as [Hc He Hn Hf Hl].
      split.
      * simpl. rewrite Hc. unfold chunk.
        etransitivity; [|apply (firstn_skipn (Z.to_nat chunk_size))].
        f_equal. rewrite skipn_skipn. f_equal. lia.
      * intros; lia.
      * intros _; discriminate.
      * intros j c Hj Hnth. destruct j as [|j]; simpl in *.
        -- injection Hnth as <-. rewrite Hlen.
           destruct (Nat.le_gt_cases (List.length text)
                       (k + Z.to_nat chunk_size)) as [Hle|Hgt].
           ++ rewrite (He Hle) in Hj. simpl in Hj. lia.
           ++ unfold len. lia.
        -- eapply Hf; [|eassumption]. lia.
      * intros c Hlast.
        destruct (Nat.le_gt_cases (List.length text)
                    (k + Z.to_nat chunk_size)) as [Hle|Hgt].
        -- rewrite (He Hle) in Hlast. simpl in Hlast.
           injection Hlast as <-.
           rewrite Hlen. unfold len.
           rewrite Z.mod_small by lia. lia.
        -- specialize (Hn Hgt). destruct rest as [|r rest']; [congruence|].
           change (last_error (chunk :: r :: rest'))
             with (last_error (r :: rest')) in Hlast.
           rewrite (Hl c Hlast).
           replace (len text - Z.of_nat (k + Z.to_nat chunk_size) - 1)
             with (len text - Z.of_nat k - 1 + (-1) * chunk_size) by lia.
           rewrite Z.mod_add by lia. reflexivity.
    + exists []. rewrite app_nil_r. split; [reflexivity|].
      apply windows_done. lia.
Qed.

(** The chunker returns, and its result is the windows from the start of
    the text. *)
Lemma chunk_book_text_windows :
  exists chunks,
    _chunk_book_text text chunk_size = Some chunks
    /\ windows_from text chunk_size 0 chunks.
Proof.
  destruct (chunk_loop_windows (List.length text) [] 0%nat) as [rest [Hrun Hw]];
    [lia|].
  exists rest. split; [exact Hrun | exact Hw].
Qed.

(** C5. For every string and every positive chunk size, the chunker
    returns a list of chunks whose concatenation, in order, is the string
    itself. *)
Theorem chunks_concat_to_text :
  exists chunks,
    _chunk_book_text text chunk_size = Some chunks
    /\ concat chunks = text.
Proof.
  destruct chunk_book_text_windows as [chunks [Hrun Hw]].
  exists chunks. split; [exact Hrun|].
  rewrite (wf_concat _ _ _ _ Hw). reflexivity.
Qed.

(** C6. For every string and every positive chunk size, the chunker
    returns chunks of which every one but the last has exactly
    [chunk_size] characters; the last has [len text mod chunk_size]
    characters, or [chunk_size] when that remainder is zero; the empty
    string gives no chunk (and only the empty string does). *)
Theorem chunk_lengths :
  exists chunks,
    _chunk_book_text text chunk_size = Some chunks
    /\ (forall j c, (S j < List.length chunks)%nat ->
          nth_error chunks j = Some c -> len c = chunk_size)
    /\ (forall c, last_error chunks = Some c ->
          len c = if len text mod chunk_size =? 0 then chunk_size
                  else len text mod chunk_size)
    /\ (text = [] <-> chunks = []).
Proof.
  destruct chunk_book_text_windows as [chunks [Hrun Hw]].
  exists chunks. split; [exact Hrun|].
  destruct Hw as [Hc He Hn Hf Hl].
  split; [exact Hf|]. split.
  - intros c Hlast. rewrite (Hl c Hlast).
    assert (Hpos : 0 < len text).
    { unfold len. destruct text as [|x t]; [|simpl; lia].
      rewrite He in Hlast by (simpl; lia). discriminate. }
    replace (len text - Z.of_nat 0 - 1) with (len text - 1) by lia.
    apply last_window_length; assumption.
  - split.
    + intros Ht. apply He. rewrite Ht. simpl. lia.
    + intros Hnil. destruct text as [|x t]; [reflexivity|].
      exfalso. apply Hn; [simpl; lia | exact Hnil].
Qed.

End ChunkerFacts.

Lemma chunks_concat_to_text_witness :
  0 < 2
  /\ exists chunks,
       _chunk_book_text (str_of "abcde") 2 = Some chunks
       /\ concat chunks = str_of "abcde".
Proof.
  split; [lia | apply (chunks_concat_to_text (str_of "abcde") 2); lia].
Defined.

Lemma chunk_lengths_witness :
  0 < 2
  /\ exists chunks,
       _chunk_book_text (str_of "abcde") 2 = Some chunks
       /\ (forall j c, (S j < List.length chunks)%nat ->
             nth_error chunks j = Some c -> len c = 2)
       /\ (forall c, last_error chunks = Some c ->
             len c = if len (str_of "abcde") mod 2 =? 0 then 2
                     else len (str_of "abcde") mod 2)
       /\ (str_of "abcde" = [] <-> chunks = []).
Proof.
  split; [lia | apply (chunk_lengths (str_of "abcde") 2); lia].
Defined.

(** The chunks of a five-character text with windows of two. *)
Example chunk_abcde :
  _chunk_book_text (str_of "abcde") 2
  = Some [str_of "ab"; str_of "cd"; str_of "e"].
Proof. reflexivity. Qed.

(** The loop does not end when the chunk size is zero: whatever the fuel,
    it runs out on a non-empty text. *)
Lemma chunk_loop_zero_size (text : str) :
  text <> [] ->
  forall fuel chunks, chunk_loop fuel text 0 chunks 0 = None.
Proof.
  intros Hne. assert (H : (0 <? len text) = true).
  { apply Z.ltb_lt. unfold len. destruct text; [congruence | simpl; lia]. }
  induction fuel as [|fuel IH]; intros chunks; simpl; rewrite H.
  - reflexivity.
  - apply IH.
Qed.

(** ** The decoder

    Every step of the scanner consumes input, so the fuel [json_loads]
    starts with is never used up: [None] always stands for a text the
    decoder rejects. *)

Section DecoderFacts.

Local Open Scope nat_scope.

Lemma skip_ws_length (s : str) : List.length (skip_ws s) <= List.length s.
Proof.
  induction s as [|c s IH]; simpl; [lia|].
  destruct (is_json_ws c); simpl; lia.
Qed.

Lemma span_digits_length (s ds r : str) :
  span_digits s = (ds, r) -> List.length r <= List.length s.
Proof.
  revert ds r. induction s as [|c s IH]; intros ds r; simpl.
  - intros H; injection H as <- <-. simpl. lia.
  - destruct (is_digit c).
    + destruct (span_digits s) as [ds' r'] eqn:E.
      intros H; injection H as <- <-. specialize (IH _ _ eq_refl). lia.
    + intros H; injection H as <- <-. simpl. lia.
Qed.

Lemma span_digits_digit (c : char) (s ds r : str) :
  is_digit c = true -> span_digits (c :: s) = (ds, r) ->
  List.length r <= List.length s.
Proof.
  intros Hd. simpl. rewrite Hd.
  destruct (span_digits s) as [ds' r'] eqn:E.
  intros H; injection H as <- <-. exact (span_digits_length _ _ _ E).
Qed.

Lemma hex4_length (s r : str) (u : N) :
  hex4 s = Some (u, r) -> List.length s = 4 + List.length r.
Proof.
  unfold hex4. destruct s as [|a [|b [|c [|d r']]]]; try discriminate.
  destruct (hex_val a), (hex_val b), (hex_val c), (hex_val d); try discriminate.
  intros H; injection H as _ <-. reflexivity.
Qed.

Lemma scanstring_rest :
  forall fuel s acc v r,
    scanstring fuel s acc = POk v r -> List.length r < List.length s.
Proof.
  induction fuel as [|fuel IH]; intros s acc v r; cbn [scanstring]; [discriminate|].
  destruct s as [|c s1]; [discriminate|].
  destruct (c =? dquote)%N.
  { intros H; injection H as _ <-. simpl. lia. }
  destruct (c =? chr "\")%N.
  - destruct s1 as [|e s2]; [discriminate|].
    destruct (e =? chr "u")%N.
    + destruct (hex4 s2) as [[u s3]|] eqn:E1; [|discriminate].
      apply hex4_length in E1.
      destruct (is_high_surrogate u && starts_with [chr "\"; chr "u"] s3).
      * destruct (hex4 (skipn 2 s3)) as [[u2 s4]|] eqn:E2; [|discriminate].
        apply hex4_length in E2. rewrite length_skipn in E2.
        destruct (is_low_surrogate u2); intros H; apply IH in H; simpl; lia.
      * intros H; apply IH in H; simpl; lia.
    + destruct (simple_escape e); [|discriminate].
      intros H; apply IH in H; simpl; lia.
  - destruct (c <=? 31)%N; [discriminate|].
    intros H; apply IH in H; simpl; lia.
Qed.

Lemma scanstring_fuel :
  forall fuel s acc,
    List.length s < fuel -> scanstring fuel s acc <> PFuel.
Proof.
  induction fuel as [|fuel IH]; intros s acc Hf; [lia|]. cbn [scanstring].
  destruct s as [|c s1]; [discriminate|]. simpl in Hf.
  destruct (c =? dquote)%N; [discriminate|].
  destruct (c =? chr "\")%N.
  - destruct s1 as [|e s2]; [discriminate|]. simpl in Hf.
    destruct (e =? chr "u")%N.
    + destruct (hex4 s2) as [[u s3]|] eqn:E1; [|discriminate].
      apply hex4_length in E1.
      destruct (is_high_surrogate u && starts_with [chr "\"; chr "u"] s3).
      * destruct (hex4 (skipn 2 s3)) as [[u2 s4]|] eqn:E2; [|discriminate].
        apply hex4_length in E2. rewrite length_skipn in E2.
        destruct (is_low_surrogate u2); apply IH; lia.
      * apply IH; lia.
    + destruct (simple_escape e); [|discriminate]. apply IH; lia.
  - destruct (c <=? 31)%N; [discriminate|]. apply IH; lia.
Qed.

Ltac name_pair p E :=
  match goal with
  | |- context [match ?e with pair _ _ => _ end] => remember e as p eqn:E
  end.

Lemma match_number_rest (s : str) (v : json) (r : str) :
  match_number s = POk v r -> List.length r < List.length s.
Proof.
  unfold match_number.
  name_pair p E.
  assert (Hp : List.length (snd p) <= List.length s).
  { subst p. destruct s as [|c0 s0]; [simpl; lia|].
    destruct (c0 =? chr "-")%N; simpl; lia. }
  destruct p as [neg s1]. clear E. simpl snd in Hp.
  destruct s1 as [|c s2]; [discriminate|].
  destruct (is_digit c) eqn:Hd; [|discriminate].
  name_pair p3 E.
  assert (H3 : List.length (snd p3) <= List.length s2).
  { subst p3. destruct (c =? chr "0")%N; [simpl; lia|].
    destruct (span_digits (c :: s2)) as [a b] eqn:E.
    exact (span_digits_digit _ _ _ _ Hd E). }
  destruct p3 as [ip s3]. clear E. simpl snd in H3.
  name_pair p4 E.
  assert (H4 : List.length (snd p4) <= List.length s3).
  { subst p4. destruct s3 as [|p [|d s3']]; try (simpl; lia).
    destruct ((p =? chr ".")%N && is_digit d); [|simpl; lia].
    destruct (span_digits (skipn 1 (p :: d :: s3'))) as [a b] eqn:E.
    apply span_digits_length in E. simpl in *. lia. }
  destruct p4 as [fp s4]. clear E. simpl snd in H4.
  name_pair p5 E.
  assert (H5 : List.length (snd p5) <= List.length s4).
  { subst p5. destruct s4 as [|e s4']; [simpl; lia|].
    destruct ((e =? chr "e") || (e =? chr "E"))%N; [|simpl; lia].
    name_pair p6 E.
    assert (H6 : List.length (snd p6) <= List.length s4').
    { subst p6. destruct s4' as [|g r0]; [simpl; lia|].
      destruct (g =? chr "-")%N; [simpl; lia|].
      destruct (g =? chr "+")%N; simpl; lia. }
    destruct p6 as [eneg s4'']. clear E. simpl snd in H6.
    destruct (span_digits s4'') as [es r0] eqn:E.
    apply span_digits_length in E.
    destruct es; simpl; lia. }
  destruct p5 as [ep s5]. clear E. simpl snd in H5.
  simpl in Hp.
  destruct fp, ep; intros H; injection H as _ <-; simpl in *; lia.
Qed.

Lemma match_number_fuel (s : str) : match_number s <> PFuel.
Proof.
  unfold match_number.
  repeat match goal with
         | |- context [match ?x with _ => _ end] => destruct x
         | |- context [if ?x then _ else _] => destruct x
         end; discriminate.
Qed.

Lemma POk_rest (A : Type) (v v' : A) (r r' : str) :
  POk v r = POk v' r' -> r = r'.
Proof. congruence. Qed.

Ltac skip_ws_cases s d r E :=
  let H := fresh "Hws" in
  pose proof (skip_ws_length s) as H;
  destruct (skip_ws s) as [|d r] eqn:E; cbn [List.length] in H.

Lemma scan_rest :
  forall fuel,
    (forall s v r, scan_once fuel s = POk v r ->
                   List.length r < List.length s)
    /\ (forall s acc v r, array_items fuel s acc = POk v r ->
                          List.length r < List.length s)
    /\ (forall s acc v r, object_items fuel s acc = POk v r ->
                          List.length r < List.length s).
Proof.
  induction fuel as [|fuel [IHs [IHa IHo]]].
  - repeat split; intros; discriminate.
  - split; [|split].
    + intros s v r. cbn [scan_once].
      destruct s as [|c s1]; [discriminate|]. cbn [List.length].
      destruct (c =? dquote)%N.
      { destruct (scanstring (S (List.length s1)) s1 []) as [k r0| |] eqn:E;
          try discriminate.
        apply scanstring_rest in E. intros H; injection H as _ <-. lia. }
      destruct (c =? chr "{")%N.
      { skip_ws_cases s1 d s2 E; [discriminate|].
        destruct (d =? chr "}")%N.
        - intros H; injection H as _ <-. lia.
        - intros H. apply IHo in H. cbn [List.length] in H. lia. }
      destruct (c =? chr "[")%N.
      { skip_ws_cases s1 d s2 E; [discriminate|].
        destruct (d =? chr "]")%N.
        - intros H; injection H as _ <-. lia.
        - intros H. apply IHa in H. cbn [List.length] in H. lia. }
      repeat match goal with
             | |- (if ?b then POk _ (skipn ?n ?l) else _) = _ -> _ =>
                 destruct b;
                 [intros H; apply POk_rest in H; rewrite <- H, length_skipn;
                  cbn [List.length]; lia|]
             end.
      intros H. apply match_number_rest in H. exact H.
    + intros s acc v r. cbn [array_items].
      destruct (scan_once fuel s) as [x r0| |] eqn:E; try discriminate.
      apply IHs in E.
      skip_ws_cases r0 c r1 E1; [discriminate|].
      destruct (c =? chr "]")%N.
      { intros H; injection H as _ <-. lia. }
      destruct (c =? chr ",")%N; [|discriminate].
      intros H. apply IHa in H. pose proof (skip_ws_length r1) as Hr1. lia.
    + intros s acc v r. cbn [object_items].
      destruct s as [|c s1]; [discriminate|]. cbn [List.length].
      destruct (c =? dquote)%N; [|discriminate].
      destruct (scanstring (S (List.length s1)) s1 []) as [k r0| |] eqn:E;
        try discriminate.
      apply scanstring_rest in E.
      skip_ws_cases r0 d r1 E1; [discriminate|].
      destruct (d =? chr ":")%N; [|discriminate].
      destruct (scan_once fuel (skip_ws r1)) as [x r2| |] eqn:E2;
        try discriminate.
      apply IHs in E2. pose proof (skip_ws_length r1) as Hr1.
      skip_ws_cases r2 e r3 E3; [discriminate|].
      destruct (e =? chr "}")%N.
      { intros H; injection H as _ <-. lia. }
      destruct (e =? chr ",")%N; [|discriminate].
      intros H. apply IHo in H. pose proof (skip_ws_length r3) as Hr3. lia.
Qed.

Lemma scan_fuel :
  forall fuel,
    (forall s, 2 * List.length s < fuel -> scan_once fuel s <> PFuel)
    /\ (forall s acc, 2 * List.length s + 1 < fuel ->
                      array_items fuel s acc <> PFuel)
    /\ (forall s acc, 2 * List.length s + 1 < fuel ->
                      object_items fuel s acc <> PFuel).
Proof.
  induction fuel as [|fuel [IHs [IHa IHo]]].
  - repeat split; intros; lia.
  - split; [|split].
    + intros s Hf. cbn [scan_once].
      destruct s as [|c s1]; [discriminate|]. cbn [List.length] in Hf.
      destruct (c =? dquote)%N.
      { pose proof (scanstring_fuel (S (List.length s1)) s1 []
                      (Nat.lt_succ_diag_r _)) as Hs.
        destruct (scanstring (S (List.length s1)) s1 []);
          [discriminate | discriminate | congruence]. }
      destruct (c =? chr "{")%N.
      { skip_ws_cases s1 d s2 E; [discriminate|].
        destruct (d =? chr "}")%N; [discriminate|].
        apply IHo. cbn [List.length]. lia. }
      destruct (c =? chr "[")%N.
      { skip_ws_cases s1 d s2 E; [discriminate|].
        destruct (d =? chr "]")%N; [discriminate|].
        apply IHa. cbn [List.length]. lia. }
      repeat match goal with
             | |- (if ?b then POk _ _ else _) <> _ =>
                 destruct b; [discriminate|]
             end.
      apply match_number_fuel.
    + intros s acc Hf. cbn [array_items].
      pose proof (IHs s ltac:(lia)) as Hs.
      destruct (scan_once fuel s) as [x r0| |] eqn:E;
        [|discriminate|congruence].
      apply (proj1 (scan_rest fuel)) in E.
      skip_ws_cases r0 c r1 E1; [discriminate|].
      destruct (c =? chr "]")%N; [discriminate|].
      destruct (c =? chr ",")%N; [|discriminate].
      apply IHa. pose proof (skip_ws_length r1) as Hr1. lia.
    + intros s acc Hf. cbn [object_items].
      destruct s as [|c s1]; [discriminate|]. cbn [List.length] in Hf.
      destruct (c =? dquote)%N; [|discriminate].
      pose proof (scanstring_fuel (S (List.length s1)) s1 []
                    (Nat.lt_succ_diag_r _)) as Hq.
      destruct (scanstring (S (List.length s1)) s1 []) as [k r0| |] eqn:E;
        [|discriminate|congruence].
      apply scanstring_rest in E.
      skip_ws_cases r0 d r1 E1; [discriminate|].
      destruct (d =? chr ":")%N; [|discriminate].
      pose proof (skip_ws_length r1) as Hr1.
      pose proof (IHs (skip_ws r1) ltac:(lia)) as Hs.
      destruct (scan_once fuel (skip_ws r1)) as [x r2| |] eqn:E2;
        [|discriminate|congruence].
      apply (proj1 (scan_rest fuel)) in E2.
      skip_ws_cases r2 e r3 E3; [discriminate|].
      destruct (e =? chr "}")%N; [discriminate|].
      destruct (e =? chr ",")%N; [|discriminate].
      apply IHo. pose proof (skip_ws_length r3) as Hr3. lia.
Qed.

(** [json_loads] gives [None] only for a text the decoder rejects: its
    fuel is never used up. *)
Lemma json_loads_fuel (s : str) :
  scan_once (S (2 * List.length s)) (skip_ws s) <> PFuel.
Proof.
  apply (proj1 (scan_fuel (S (2 * List.length s)))).
  pose proof (skip_ws_length s) as Hs. lia.
Qed.

End DecoderFacts.

(** ** Response Recoverer *)

Lemma starts_with_spec (p s : str) :
  starts_with p s = true <-> exists post, s = p ++ post.
Proof.
  revert s. induction p as [|x p IH]; intros s; simpl.
  - split; [intros _; exists s; reflexivity | reflexivity].
  - destruct s as [|y s].
    + split; [discriminate | intros [post H]; discriminate].
    + rewrite andb_true_iff, N.eqb_eq, IH. split.
      * intros [-> [post ->]]. exists post. reflexivity.
      * intros [post H]. injection H as -> ->.
        split; [reflexivity | exists post; reflexivity].
Qed.

Lemma contains_spec (sub s : str) :
  contains sub s = true <-> Substring sub s.
Proof.
  unfold Substring. induction s as [|y s IH].
  - simpl. rewrite orb_false_r, starts_with_spec. split.
    + intros [post H]. exists [], post. exact H.
    + intros [pre [post H]].
      destruct pre; [exists post; exact H | discriminate].
  - cbn [contains]. rewrite orb_true_iff, starts_with_spec, IH. split.
    + intros [[post H] | [pre [post H]]].
      * exists [], post. exact H.
      * exists (y :: pre), post. rewrite H. reflexivity.
    + intros [pre [post H]]. destruct pre as [|z pre].
      * left. exists post. exact H.
      * right. injection H as _ H. exists pre, post. exact H.
Qed.

Lemma contains_false_spec (sub s : str) :
  contains sub s = false <-> ~ Substring sub s.
Proof.
  rewrite <- contains_spec. destruct (contains sub s); split; congruence.
Qed.

(** The recoverer always comes to a result. *)
Lemma recover_never_diverges (m : str) (i : Z) (t fr : str) :
  recover_paragraphs m i t fr <> Diverge.
Proof.
  unfold recover_paragraphs, parse_stages, parse_after_extraction,
    check_format.
  repeat match goal with
         | |- context [match ?x with _ => _ end] => destruct x
         | |- context [if ?x then _ else _] => destruct x
         end; discriminate.
Qed.

(** An empty completion text is an error. *)
Lemma empty_text_raises (m : str) (i : Z) (fr : str) :
  recover_paragraphs m i [] fr = Raise (EmptyResponse m fr).
Proof. reflexivity. Qed.

(** Past the gate, the outcome is that of the final check on the value
    that was parsed. *)
Lemma recover_checks_final_parse (m : str) (i : Z) (t fr : str)
    (parsed : json) :
  t <> [] -> narrative_gate t = false -> final_parse t = Some parsed ->
  recover_paragraphs m i t fr = check_format i parsed.
Proof.
  intros Hne Hgate Hparse. destruct t as [|x t]; [congruence|].
  unfold recover_paragraphs. rewrite Hgate.
  unfold parse_stages, final_parse in *.
  destruct (json_loads (x :: t)) as [v|].
  - injection Hparse as ->. reflexivity.
  - unfold parse_after_extraction.
    destruct (find_json_object (strip_fences (x :: t))) as [m0|];
      [|discriminate].
    rewrite Hparse. reflexivity.
Qed.

(** C1 (as amended). On a non-empty completion text the gate fires exactly
    when the text lacks an opening brace or lacks the word [paragraphs]
    (one of the two missing is enough); when it fires the recoverer returns
    the empty list, and when it does not the recoverer goes on to the
    direct parse. *)
Theorem narrative_gate_fires_when_either_is_missing
    (m : str) (sub_index : Z) (text_content finish_reason : str) :
  text_content <> [] ->
  (narrative_gate text_content = true <->
     ~ Substring (str_of "{") text_content
     \/ ~ Substring (str_of "paragraphs") text_content)
  /\ (narrative_gate text_content = true ->
      recover_paragraphs m sub_index text_content finish_reason = Return [])
  /\ (narrative_gate text_content = false ->
      recover_paragraphs m sub_index text_content finish_reason
      = parse_stages sub_index text_content).
Proof.
  intros Hne. split; [|split].
  - unfold narrative_gate.
    rewrite orb_true_iff, !negb_true_iff, !contains_false_spec. reflexivity.
  - intros Hg. destruct text_content; [congruence|].
    unfold recover_paragraphs. rewrite Hg. reflexivity.
  - intros Hg. destruct text_content; [congruence|].
    unfold recover_paragraphs. rewrite Hg. reflexivity.
Qed.

Lemma narrative_gate_fires_when_either_is_missing_witness :
  plain_text <> []
  /\ (narrative_gate plain_text = true <->
        ~ Substring (str_of "{") plain_text
        \/ ~ Substring (str_of "paragraphs") plain_text)
  /\ (narrative_gate plain_text = true ->
      recover_paragraphs (model gpt) 1 plain_text (str_of "stop")
      = Return [])
  /\ (narrative_gate plain_text = false ->
      recover_paragraphs (model gpt) 1 plain_text (str_of "stop")
      = parse_stages 1 plain_text).
Proof.
  assert (H : plain_text <> []) by (vm_compute; discriminate).
  split; [exact H|].
  apply (narrative_gate_fires_when_either_is_missing
           (model gpt) 1 plain_text (str_of "stop") H).
Defined.

(** C1, counterexample. The text [{}] is not empty and contains an opening
    brace, yet the gate fires on it: the recoverer returns the empty list,
    where the direct parse of the same text would have led to the
    invalid-format error. *)
Lemma narrative_gate_fires_on_braces :
  braces_text <> []
  /\ contains (str_of "{") braces_text = true
  /\ narrative_gate braces_text = true
  /\ recover_paragraphs (model gpt) 1 braces_text (str_of "stop") = Return []
  /\ parse_stages 1 braces_text = Raise (InvalidFormat 1).
Proof. repeat split; try discriminate; vm_compute; reflexivity. Qed.

(** A parsed object with a non-empty [paragraphs] list is returned as it
    is. *)
Lemma direct_parse_returns_list (m : str) (i : Z) (t fr : str)
    (d : list (str * json)) (l : list json) :
  narrative_gate t = false ->
  json_loads t = Some (JDict d) ->
  dict_get d (str_of "paragraphs") = Some (JList l) ->
  l <> [] ->
  recover_paragraphs m i t fr = Return l.
Proof.
  intros Hgate Hparse Hget Hl.
  destruct t as [|x t]; [discriminate Hgate|].
  unfold recover_paragraphs, parse_stages. rewrite Hgate, Hparse.
  unfold check_format. destruct d as [|kv d]; [discriminate Hget|].
  cbn [truthy negb]. rewrite Hget.
  destruct l; [congruence | reflexivity].
Qed.

(** C3, the defect. The text of an object whose only field, [paragraphs],
    is the empty array parses directly to that object, and the recoverer
    raises the invalid-format error instead of returning the empty list:
    the test [not parsed_response.get('paragraphs')] also holds of an empty
    list. *)
Theorem empty_paragraphs_array_raises (m : str) (i : Z) (fr : str) :
  json_loads empty_paragraphs_text
  = Some (JDict [(str_of "paragraphs", JList [])])
  /\ narrative_gate empty_paragraphs_text = false
  /\ recover_paragraphs m i empty_paragraphs_text fr
     = Raise (InvalidFormat i).
Proof. repeat split; vm_compute; reflexivity. Qed.

(** C4 (as amended). When the text passes the gate and the final parse
    gives a value: if that value has no list under [paragraphs], the
    recoverer raises, with the invalid-format error when the value is an
    object; and a non-empty list under [paragraphs] is returned as it is,
    whatever its elements are. *)
Theorem invalid_format_unless_list
    (m : str) (i : Z) (t fr : str) (parsed : json) :
  t <> [] -> narrative_gate t = false -> final_parse t = Some parsed ->
  ((forall d l, parsed = JDict d ->
      dict_get d (str_of "paragraphs") <> Some (JList l)) ->
   exists e,
     recover_paragraphs m i t fr = Raise e
     /\ (e = InvalidFormat i \/ e = AttributeError)
     /\ (forall d, parsed = JDict d -> e = InvalidFormat i))
  /\ (forall d l, parsed = JDict d ->
        dict_get d (str_of "paragraphs") = Some (JList l) -> l <> [] ->
        recover_paragraphs m i t fr = Return l).
Proof.
  intros Hne Hgate Hparse.
  rewrite (recover_checks_final_parse m i t fr parsed Hne Hgate Hparse).
  unfold check_format. split.
  - intros Hnolist.
    destruct (truthy parsed).
    + cbn [negb]. destruct parsed as [| b | n | f | s | l | d];
        try (exists AttributeError; repeat split;
             [right; reflexivity | intros d0 Hd; discriminate Hd]).
      specialize (Hnolist d).
      destruct (dict_get d (str_of "paragraphs")) as [v|].
      * destruct (truthy v); cbn [negb].
        -- destruct v as [| b | n | f | s | l | d'];
             try (exists (InvalidFormat i); repeat split;
                  left; reflexivity).
           exfalso. apply (Hnolist l); reflexivity.
        -- exists (InvalidFormat i). repeat split. left; reflexivity.
      * exists (InvalidFormat i). repeat split. left; reflexivity.
    + cbn [negb]. exists (InvalidFormat i). repeat split. left; reflexivity.
  - intros d l -> Hget Hl.
    destruct d as [|kv d]; [discriminate Hget|].
    cbn [truthy negb]. rewrite Hget.
    destruct l; [congruence | reflexivity].
Qed.

Lemma invalid_format_unless_list_witness :
  scalar_paragraphs_text <> []
  /\ narrative_gate scalar_paragraphs_text = false
  /\ final_parse scalar_paragraphs_text
     = Some (JDict [(str_of "paragraphs", JInt 7)])
  /\ ((forall d l, JDict [(str_of "paragraphs", JInt 7)] = JDict d ->
         dict_get d (str_of "paragraphs") <> Some (JList l)) ->
      exists e,
        recover_paragraphs (model gpt) 1 scalar_paragraphs_text
          (str_of "stop") = Raise e
        /\ (e = InvalidFormat 1 \/ e = AttributeError)
        /\ (forall d, JDict [(str_of "paragraphs", JInt 7)] = JDict d ->
              e = InvalidFormat 1))
  /\ (forall d l, JDict [(str_of "paragraphs", JInt 7)] = JDict d ->
        dict_get d (str_of "paragraphs") = Some (JList l) -> l <> [] ->
        recover_paragraphs (model gpt) 1 scalar_paragraphs_text
          (str_of "stop") = Return l).
Proof.
  assert (H1 : scalar_paragraphs_text <> []) by (vm_compute; discriminate).
  assert (H2 : narrative_gate scalar_paragraphs_text = false)
    by (vm_compute; reflexivity).
  assert (H3 : final_parse scalar_paragraphs_text
               = Some (JDict [(str_of "paragraphs", JInt 7)]))
    by (vm_compute; reflexivity).
  split; [exact H1|]. split; [exact H2|]. split; [exact H3|].
  apply (invalid_format_unless_list (model gpt) 1 scalar_paragraphs_text
           (str_of "stop") (JDict [(str_of "paragraphs", JInt 7)])
           H1 H2 H3).
Defined.

(** C4, counterexample. The text of an object whose [paragraphs] field is
    the array of the number 1 parses; the field is a list that holds a
    number, not a string, and the recoverer returns that list. *)
Lemma number_in_paragraphs_is_returned :
  final_parse number_paragraphs_text
  = Some (JDict [(str_of "paragraphs", JList [JInt 1])])
  /\ recover_paragraphs (model gpt) 1 number_paragraphs_text (str_of "stop")
     = Return [JInt 1].
Proof. split; vm_compute; reflexivity. Qed.

(** What happens to the truncated response: the direct parse fails (the
    scanner reports an error, it does not run out of fuel), no pattern
    finds a candidate, and the recoverer returns the empty list. *)
Lemma truncated_response_is_dropped (m : str) (i : Z) (fr : str) :
  scan_once (S (2 * List.length truncated_text)) (skip_ws truncated_text)
  = PErr
  /\ find_json_object (strip_fences truncated_text) = None
  /\ recover_paragraphs m i truncated_text fr = Return [].
Proof. repeat split; vm_compute; reflexivity. Qed.

(** C8. For the truncated text, an object opened with a [paragraphs]
    array of the strings [a] and [b] and cut before the closing bracket
    and brace, the recoverer returns the list of [a] and [b] or the empty
    list, and does not raise. *)
Theorem truncated_response_never_raises (m : str) (i : Z) (fr : str) :
  (recover_paragraphs m i truncated_text fr
   = Return [JStr (str_of "a"); JStr (str_of "b")]
   \/ recover_paragraphs m i truncated_text fr = Return [])
  /\ forall e, recover_paragraphs m i truncated_text fr <> Raise e.
Proof.
  destruct (truncated_response_is_dropped m i fr) as [_ [_ H]].
  rewrite H. split; [right; reflexivity | discriminate].
Qed.

(** The responses of the specification's examples. *)
Example direct_parse_two_paragraphs :
  recover_paragraphs (model gpt) 1 two_paragraphs_text (str_of "stop")
  = Return [JStr (str_of "a"); JStr (str_of "b")].
Proof. vm_compute. reflexivity. Qed.

Example fenced_block_is_unwrapped :
  json_loads fenced_text = None
  /\ strip_fences fenced_text = two_paragraphs_text
  /\ recover_paragraphs (model gpt) 1 fenced_text (str_of "stop")
     = Return [JStr (str_of "a"); JStr (str_of "b")].
Proof. repeat split; vm_compute; reflexivity. Qed.

Example plain_text_has_no_paragraphs :
  recover_paragraphs (model gpt) 1 plain_text (str_of "stop") = Return [].
Proof. vm_compute. reflexivity. Qed.

(** ** Chunk Orchestrator *)

Section Orchestrator.

Context {backend : Type}.
Variable create : backend -> request -> api_response * backend.
Variable self : OpenAIService.

(** One sub-chunk: one backend call, then the recoverer, and every
    exception wrapped with the position of the sub-chunk. *)
Lemma single_chunk_unfold c ci tc i n w :
  _process_single_chunk create self c ci tc i n w
  = let (resp, b) := create (backend_state w) (chunk_request self c i n) in
    let w' := {| backend_state := b;
                 calls := calls w ++ [chunk_request self c i n] |} in
    match resp with
    | ApiError msg => (Raise (ChunkFailed i n (ApiCallFailed msg)), w')
    | Completion content finish_reason =>
        match recover_paragraphs (model self) i
                (match content with Some t => t | None => [] end)
                finish_reason with
        | Return l => (Return l, w')
        | Raise e => (Raise (ChunkFailed i n e), w')
        | Diverge => (Diverge, w')
        end
    end.
Proof.
  unfold _process_single_chunk, try_except, bind, chat_completions_create,
    lift, raise.
  destruct (create (backend_state w) (chunk_request self c i n)) as [resp b].
  destruct resp as [msg | content fr]; [reflexivity|].
  destruct (recover_paragraphs _ _ _ _); reflexivity.
Qed.

(** A sub-chunk sends exactly one request and comes to a result. *)
Lemma single_chunk_calls c ci tc i n w o w' :
  _process_single_chunk create self c ci tc i n w = (o, w') ->
  calls w' = calls w ++ [chunk_request self c i n] /\ o <> Diverge.
Proof.
  rewrite single_chunk_unfold.
  destruct (create _ _) as [resp b]. cbv zeta.
  destruct resp as [msg | content fr].
  - intros H; injection H as <- <-. split; [reflexivity | discriminate].
  - pose proof (recover_never_diverges (model self) i
                  (match content with Some t => t | None => [] end) fr)
      as Hd.
    destruct (recover_paragraphs _ _ _ _); intros H; injection H as <- <-;
      (split; [reflexivity | congruence || discriminate]).
Qed.

(** A failed backend call is raised, wrapped twice. *)
Lemma single_chunk_api_error c ci tc i n w msg b :
  create (backend_state w) (chunk_request self c i n) = (ApiError msg, b) ->
  _process_single_chunk create self c ci tc i n w
  = (Raise (ChunkFailed i n (ApiCallFailed msg)),
     {| backend_state := b;
        calls := calls w ++ [chunk_request self c i n] |}).
Proof. intros H. rewrite single_chunk_unfold, H. reflexivity. Qed.

(** An empty completion is raised as an error of the sub-chunk. *)
Lemma single_chunk_empty_completion c ci tc i n w content fr b :
  create (backend_state w) (chunk_request self c i n)
  = (Completion content fr, b) ->
  content = None \/ content = Some [] ->
  _process_single_chunk create self c ci tc i n w
  = (Raise (ChunkFailed i n (EmptyResponse (model self) fr)),
     {| backend_state := b;
        calls := calls w ++ [chunk_request self c i n] |}).
Proof.
  intros H Hempty. rewrite single_chunk_unfold, H.
  destruct Hempty as [-> | ->]; reflexivity.
Qed.

Lemma single_chunk_position c ci tc ci' tc' i n w :
  _process_single_chunk create self c ci tc i n w
  = _process_single_chunk create self c ci' tc' i n w.
Proof. reflexivity. Qed.

Lemma process_chunks_position chunks ci tc ci' tc' :
  forall i n acc w,
    process_chunks create self chunks ci tc i n acc w
    = process_chunks create self chunks ci' tc' i n acc w.
Proof.
  induction chunks as [|c rest IH]; intros i n acc w; [reflexivity|].
  cbn [process_chunks]. unfold bind.
  rewrite (single_chunk_position c ci tc ci' tc').
  destruct (_process_single_chunk create self c ci' tc' i n w)
    as [[l|e|] w1]; [apply IH | reflexivity | reflexivity].
Qed.

(** When every sub-chunk returns, the loop returns the accumulator
    extended with their lists, in order. *)
Lemma process_chunks_return ci tc n i chunks w ls w' :
  chunks_return create self ci tc n i chunks w ls w' ->
  forall acc,
    process_chunks create self chunks ci tc i n acc w
    = (Return (acc ++ concat ls), w').
Proof.
  induction 1 as [i w | i c rest w l w1 ls w2 Hc Hrest IH]; intros acc.
  - simpl. rewrite app_nil_r. reflexivity.
  - cbn [process_chunks]. unfold bind. rewrite Hc, IH.
    simpl. rewrite app_assoc. reflexivity.
Qed.

(** When a sub-chunk raises after the ones before it returned, the loop
    stops there with that exception and that world. *)
Lemma process_chunks_raise ci tc n i pre w ls w1 c post e w2 :
  chunks_return create self ci tc n i pre w ls w1 ->
  _process_single_chunk create self c ci tc (i + len pre) n w1
  = (Raise e, w2) ->
  forall acc,
    process_chunks create self (pre ++ c :: post) ci tc i n acc w
    = (Raise e, w2).
Proof.
  induction 1 as [i w | i c0 rest w l w1 ls w2' Hc Hrest IH];
    intros Hfail acc.
  - simpl. unfold bind. unfold len in Hfail. simpl in Hfail.
    rewrite Z.add_0_r in Hfail. rewrite Hfail. reflexivity.
  - cbn [app process_chunks]. unfold bind. rewrite Hc. apply IH.
    rewrite <- Hfail. f_equal. unfold len. simpl List.length. lia.
Qed.

Lemma chunks_return_calls ci tc n i chunks w ls w' :
  chunks_return create self ci tc n i chunks w ls w' ->
  calls w' = calls w ++ requests_from self chunks i n.
Proof.
  induction 1 as [i w | i c rest w l w1 ls w2 Hc Hrest IH].
  - simpl. rewrite app_nil_r. reflexivity.
  - apply single_chunk_calls in Hc. destruct Hc as [Hc _].
    rewrite IH, Hc, <- app_assoc. reflexivity.
Qed.

Lemma requests_from_app chunks1 chunks2 : forall i n,
  requests_from self (chunks1 ++ chunks2) i n
  = requests_from self chunks1 i n
    ++ requests_from self chunks2 (i + len chunks1) n.
Proof.
  induction chunks1 as [|c rest IH]; intros i n.
  - simpl. unfold len. simpl. rewrite Z.add_0_r. reflexivity.
  - simpl. rewrite IH. do 3 f_equal. unfold len. simpl List.length. lia.
Qed.

(** The orchestrator with a configured key: the loop over the chunks of
    the text, then the aggregate. *)
Lemma process_book_text_unfold text ci tc w chunks :
  api_key self <> [] ->
  _chunk_book_text text 100000 = Some chunks ->
  process_book_text create self text ci tc w
  = match process_chunks create self chunks ci tc 1 (len chunks) [] w with
    | (Return all, w') =>
        (Return {| status := str_of "success";
                   paragraphs := all;
                   total_paragraphs := len all |}, w')
    | (Raise e, w') => (Raise e, w')
    | (Diverge, w') => (Diverge, w')
    end.
Proof.
  intros Hkey Hchunks. unfold process_book_text.
  destruct (api_key self); [congruence|].
  rewrite Hchunks. unfold bind, ret.
  destruct (process_chunks create self chunks ci tc 1 (len chunks) [] w)
    as [[all|e|] w']; reflexivity.
Qed.

(** C2. When every sub-chunk of a submission returns a paragraph list,
    the aggregate holds the concatenation of these lists in sub-chunk
    order under [paragraphs] and the length of that concatenation under
    [total_paragraphs]. *)
Theorem aggregate_is_concatenation text ci tc w chunks ls w' :
  api_key self <> [] ->
  _chunk_book_text text 100000 = Some chunks ->
  chunks_return create self ci tc (len chunks) 1 chunks w ls w' ->
  process_book_text create self text ci tc w
  = (Return {| status := str_of "success";
               paragraphs := concat ls;
               total_paragraphs := len (concat ls) |}, w').
Proof.
  intros Hkey Hchunks Hrun.
  rewrite (process_book_text_unfold text ci tc w chunks Hkey Hchunks).
  rewrite (process_chunks_return _ _ _ _ _ _ _ _ Hrun). reflexivity.
Qed.

(** C7. When the backend answers the call of a sub-chunk with an empty
    completion, absent or of length zero, that sub-chunk raises the
    empty-response error, and so does the whole submission: no aggregate
    is returned. *)
Theorem empty_completion_raises text ci tc w pre c post ls w1 content fr b :
  api_key self <> [] ->
  _chunk_book_text text 100000 = Some (pre ++ c :: post) ->
  chunks_return create self ci tc (len (pre ++ c :: post)) 1 pre w ls w1 ->
  create (backend_state w1)
    (chunk_request self c (1 + len pre) (len (pre ++ c :: post)))
  = (Completion content fr, b) ->
  content = None \/ content = Some [] ->
  recover_paragraphs (model self) (1 + len pre)
    (match content with Some t => t | None => [] end) fr
  = Raise (EmptyResponse (model self) fr)
  /\ exists w2,
       _process_single_chunk create self c ci tc (1 + len pre)
         (len (pre ++ c :: post)) w1
       = (Raise (ChunkFailed (1 + len pre) (len (pre ++ c :: post))
                   (EmptyResponse (model self) fr)), w2)
       /\ process_book_text create self text ci tc w
          = (Raise (ChunkFailed (1 + len pre) (len (pre ++ c :: post))
                      (EmptyResponse (model self) fr)), w2).
Proof.
  intros Hkey Hchunks Hpre Hcall Hempty. split.
  - destruct Hempty as [-> | ->]; reflexivity.
  - pose proof (single_chunk_empty_completion c ci tc _ _ _ _ _ _
                  Hcall Hempty) as Hfail.
    eexists. split; [exact Hfail|].
    rewrite (process_book_text_unfold text ci tc w _ Hkey Hchunks).
    rewrite (process_chunks_raise _ _ _ _ _ _ _ _ _ post _ _ Hpre Hfail).
    reflexivity.
Qed.

(** C9. When a sub-chunk raises, after the ones before it returned, the
    submission raises that same exception at once: the requests sent are
    those of the sub-chunks up to the failing one, and none is sent for a
    later sub-chunk. *)
Theorem fail_fast text ci tc w pre c post ls w1 e w2 :
  api_key self <> [] ->
  _chunk_book_text text 100000 = Some (pre ++ c :: post) ->
  chunks_return create self ci tc (len (pre ++ c :: post)) 1 pre w ls w1 ->
  _process_single_chunk create self c ci tc (1 + len pre)
    (len (pre ++ c :: post)) w1 = (Raise e, w2) ->
  process_book_text create self text ci tc w = (Raise e, w2)
  /\ calls w2
     = calls w ++ requests_from self (pre ++ [c]) 1 (len (pre ++ c :: post)).
Proof.
  intros Hkey Hchunks Hpre Hfail. split.
  - rewrite (process_book_text_unfold text ci tc w _ Hkey Hchunks).
    rewrite (process_chunks_raise _ _ _ _ _ _ _ _ _ post _ _ Hpre Hfail).
    reflexivity.
  - apply single_chunk_calls in Hfail. destruct Hfail as [-> _].
    rewrite (chunks_return_calls _ _ _ _ _ _ _ _ Hpre).
    rewrite requests_from_app, <- app_assoc. reflexivity.
Qed.

(** C10. The arguments [chunk_index] and [total_chunks] have no effect:
    from the same world, two runs that differ only in them end with the
    same outcome, the same backend state and the same requests sent. *)
Theorem chunk_position_noninterference text ci tc ci' tc' w :
  process_book_text create self text ci tc w
  = process_book_text create self text ci' tc' w.
Proof.
  unfold process_book_text.
  destruct (api_key self); [reflexivity|].
  destruct (_chunk_book_text text 100000) as [chunks|]; [|reflexivity].
  unfold bind.
  rewrite (process_chunks_position chunks ci tc ci' tc'). reflexivity.
Qed.

(** The prompt of a request names the position of the sub-chunk in the
    submission, and nothing of [chunk_index] or [total_chunks]. *)
Lemma request_prompt c i n :
  req_prompt (chunk_request self c i n)
  = prompt_head ++ str_of_int i ++ str_of "/" ++ str_of_int n
      ++ str_of "):" ++ [nl] ++ c.
Proof. reflexivity. Qed.

End Orchestrator.

(** ** The orchestrator on scripted backends *)

Lemma chunks_eqb_eq (a b : option (list str)) :
  chunks_eqb a b = true -> a = b.
Proof.
  destruct a as [x|], b as [y|]; simpl; try discriminate; [|reflexivity].
  destruct (list_eq_dec (list_eq_dec N.eq_dec) x y);
    [intros _; congruence | discriminate].
Qed.

(** The scripted backend on a call it has an answer for. *)
Lemma scripted_answer_returns (self : OpenAIService) c ci tc i n
    (text : str) (l : list json) (rest : list api_response)
    (sent : list request) :
  recover_paragraphs (model self) i text (str_of "stop") = Return l ->
  _process_single_chunk scripted self c ci tc i n
    {| backend_state := answer text :: rest; calls := sent |}
  = (Return l, {| backend_state := rest;
                  calls := sent ++ [chunk_request self c i n] |}).
Proof.
  intros H. rewrite single_chunk_unfold.
  cbn [backend_state calls scripted answer]. rewrite H. reflexivity.
Qed.

(** The scripted backend on a call that fails. *)
Lemma scripted_error_raises (self : OpenAIService) c ci tc i n
    (msg : str) (rest : list api_response) (sent : list request) :
  _process_single_chunk scripted self c ci tc i n
    {| backend_state := ApiError msg :: rest; calls := sent |}
  = (Raise (ChunkFailed i n (ApiCallFailed msg)),
     {| backend_state := rest;
        calls := sent ++ [chunk_request self c i n] |}).
Proof. rewrite single_chunk_unfold. reflexivity. Qed.

(** The long book has the three chunks [long_chunks]. *)
Lemma long_book_chunks :
  _chunk_book_text long_book 100000 = Some long_chunks.
Proof. apply chunks_eqb_eq. vm_compute. reflexivity. Qed.

(** The three chunks of the long book, answered in order. *)
Lemma long_book_returns :
  chunks_return scripted gpt 1 1 (len long_chunks) 1 long_chunks
    (script three_answers) three_lists long_sent.
Proof.
  unfold long_chunks at 2, three_lists, three_answers, script.
  eapply chunks_return_cons.
  { apply scripted_answer_returns. vm_compute. reflexivity. }
  eapply chunks_return_cons.
  { apply scripted_answer_returns. vm_compute. reflexivity. }
  eapply chunks_return_cons.
  { apply scripted_answer_returns. vm_compute. reflexivity. }
  apply chunks_return_nil.
Qed.

(** The first chunk of the long book, answered before a call that
    fails. *)
Lemma long_book_first_returns :
  chunks_return scripted gpt 1 1 (len long_chunks) 1 [part_a]
    (script failing_answers) [[JStr (str_of "a"); JStr (str_of "b")]]
    (long_first_sent [ApiError (str_of "quota"); answer d_paragraph_text]).
Proof.
  unfold failing_answers, script, long_first_sent.
  eapply chunks_return_cons.
  { apply scripted_answer_returns. vm_compute. reflexivity. }
  apply chunks_return_nil.
Qed.

(** The call for the second chunk of the long book fails. *)
Lemma long_book_second_fails :
  _process_single_chunk scripted gpt part_b 1 1 (1 + len [part_a])
    (len long_chunks)
    (long_first_sent [ApiError (str_of "quota"); answer d_paragraph_text])
  = (Raise (ChunkFailed (1 + len [part_a]) (len long_chunks)
              (ApiCallFailed (str_of "quota"))), long_failed).
Proof. unfold long_first_sent. apply scripted_error_raises. Qed.

(** The long book, its three chunks answered. *)
Lemma long_book_run :
  process_book_text scripted gpt long_book 1 1 (script three_answers)
  = (Return {| status := str_of "success";
               paragraphs := concat three_lists;
               total_paragraphs := len (concat three_lists) |}, long_sent).
Proof.
  assert (Hkey : api_key gpt <> []) by (vm_compute; discriminate).
  rewrite (process_book_text_unfold scripted gpt long_book 1 1 _ long_chunks
             Hkey long_book_chunks).
  rewrite (process_chunks_return scripted gpt 1 1 _ 1 _ _ _ _
             long_book_returns []).
  reflexivity.
Qed.

(** The long book, the call for its second chunk failing: the third chunk
    is not sent. *)
Lemma long_book_fails :
  process_book_text scripted gpt long_book 1 1 (script failing_answers)
  = (Raise (ChunkFailed 2 3 (ApiCallFailed (str_of "quota"))), long_failed).
Proof.
  assert (Hkey : api_key gpt <> []) by (vm_compute; discriminate).
  rewrite (process_book_text_unfold scripted gpt long_book 1 1 _ long_chunks
             Hkey long_book_chunks).
  pose proof (process_chunks_raise scripted gpt 1 1 (len long_chunks) 1
                [part_a] _ _ _ part_b [part_c] _ _
                long_book_first_returns long_book_second_fails []) as H.
  change ([part_a] ++ part_b :: [part_c]) with long_chunks in H.
  rewrite H. reflexivity.
Qed.

(** The scripted backend keeps to tame responses when its script does. *)
Lemma scripted_keeps_tame : keeps_tame scripted all_tame.
Proof.
  intros b r Hb. destruct Hb as [|resp b' Hresp Hb']; cbn [scripted fst snd].
  - split; [vm_compute; reflexivity | constructor].
  - split; assumption.
Qed.

(** The three chunks of the long book are answered with the lists
    [a, b], [c] and [d]: the aggregate has [a, b, c, d] in that order, and
    three requests were sent. *)
Lemma aggregate_is_concatenation_witness :
  api_key gpt <> []
  /\ _chunk_book_text long_book 100000 = Some long_chunks
  /\ chunks_return scripted gpt 1 1 (len long_chunks) 1 long_chunks
       (script three_answers) three_lists long_sent
  /\ process_book_text scripted gpt long_book 1 1 (script three_answers)
     = (Return {| status := str_of "success";
                  paragraphs := concat three_lists;
                  total_paragraphs := len (concat three_lists) |},
        long_sent).
Proof.
  assert (H1 : api_key gpt <> []) by (vm_compute; discriminate).
  assert (H2 : _chunk_book_text long_book 100000 = Some long_chunks)
    by (apply chunks_eqb_eq; vm_compute; reflexivity).
  assert (H3 : chunks_return scripted gpt 1 1 (len long_chunks) 1
                 long_chunks (script three_answers) three_lists long_sent).
  { unfold long_chunks at 2, three_lists, three_answers, script.
    eapply chunks_return_cons.
    { apply scripted_answer_returns. vm_compute. reflexivity. }
    eapply chunks_return_cons.
    { apply scripted_answer_returns. vm_compute. reflexivity. }
    eapply chunks_return_cons.
    { apply scripted_answer_returns. vm_compute. reflexivity. }
    apply chunks_return_nil. }
  split; [exact H1|]. split; [exact H2|]. split; [exact H3|].
  apply (aggregate_is_concatenation scripted gpt long_book 1 1 _ _ _ _
           H1 H2 H3).
Defined.

(** What the aggregate of that run holds. *)
Example three_lists_joined :
  concat three_lists
  = [JStr (str_of "a"); JStr (str_of "b"); JStr (str_of "c");
     JStr (str_of "d")]
  /\ len (concat three_lists) = 4.
Proof. split; reflexivity. Qed.

Lemma empty_completion_raises_witness :
  api_key gpt <> []
  /\ _chunk_book_text abc 100000 = Some ([] ++ abc :: [])
  /\ chunks_return scripted gpt 1 1 (len ([] ++ abc :: [])) 1 []
       (script [Completion (Some []) (str_of "stop")]) []
       (script [Completion (Some []) (str_of "stop")])
  /\ scripted [Completion (Some []) (str_of "stop")]
       (chunk_request gpt abc (1 + len (@nil str)) (len ([] ++ abc :: [])))
     = (Completion (Some []) (str_of "stop"), [])
  /\ (Some (@nil char) = None \/ Some (@nil char) = Some [])
  /\ recover_paragraphs (model gpt) (1 + len (@nil str)) [] (str_of "stop")
     = Raise (EmptyResponse (model gpt) (str_of "stop"))
  /\ exists w2,
       _process_single_chunk scripted gpt abc 1 1 (1 + len (@nil str))
         (len ([] ++ abc :: []))
         (script [Completion (Some []) (str_of "stop")])
       = (Raise (ChunkFailed (1 + len (@nil str)) (len ([] ++ abc :: []))
                   (EmptyResponse (model gpt) (str_of "stop"))), w2)
       /\ process_book_text scripted gpt abc 1 1
            (script [Completion (Some []) (str_of "stop")])
          = (Raise (ChunkFailed (1 + len (@nil str)) (len ([] ++ abc :: []))
                      (EmptyResponse (model gpt) (str_of "stop"))), w2).
Proof.
  assert (H1 : api_key gpt <> []) by (vm_compute; discriminate).
  assert (H2 : _chunk_book_text abc 100000 = Some ([] ++ abc :: []))
    by (vm_compute; reflexivity).
  assert (H3 : chunks_return scripted gpt 1 1 (len ([] ++ abc :: [])) 1 []
                 (script [Completion (Some []) (str_of "stop")]) []
                 (script [Completion (Some []) (str_of "stop")]))
    by apply chunks_return_nil.
  assert (H4 : scripted [Completion (Some []) (str_of "stop")]
                 (chunk_request gpt abc (1 + len (@nil str))
                    (len ([] ++ abc :: [])))
               = (Completion (Some []) (str_of "stop"), []))
    by reflexivity.
  assert (H5 : Some (@nil char) = None \/ Some (@nil char) = Some [])
    by (right; reflexivity).
  split; [exact H1|]. split; [exact H2|]. split; [exact H3|].
  split; [exact H4|]. split; [exact H5|].
  apply (empty_completion_raises scripted gpt abc 1 1 _ [] abc [] _ _ _ _ _
           H1 H2 H3 H4 H5).
Defined.

(** The call for the second of the three chunks of the long book fails:
    the submission raises that failure, two requests were sent, and the
    answer scripted for the third chunk is still unused. *)
Lemma fail_fast_witness :
  api_key gpt <> []
  /\ _chunk_book_text long_book 100000
     = Some ([part_a] ++ part_b :: [part_c])
  /\ chunks_return scripted gpt 1 1 (len ([part_a] ++ part_b :: [part_c]))
       1 [part_a] (script failing_answers)
       [[JStr (str_of "a"); JStr (str_of "b")]]
       (long_first_sent [ApiError (str_of "quota"); answer d_paragraph_text])
  /\ _process_single_chunk scripted gpt part_b 1 1 (1 + len [part_a])
       (len ([part_a] ++ part_b :: [part_c]))
       (long_first_sent [ApiError (str_of "quota"); answer d_paragraph_text])
     = (Raise (ChunkFailed (1 + len [part_a]) (len long_chunks)
                 (ApiCallFailed (str_of "quota"))), long_failed)
  /\ process_book_text scripted gpt long_book 1 1 (script failing_answers)
     = (Raise (ChunkFailed (1 + len [part_a]) (len long_chunks)
                 (ApiCallFailed (str_of "quota"))), long_failed)
  /\ calls long_failed
     = calls (script failing_answers)
       ++ requests_from gpt ([part_a] ++ [part_b]) 1
            (len ([part_a] ++ part_b :: [part_c])).
Proof.
  assert (H1 : api_key gpt <> []) by (vm_compute; discriminate).
  assert (H2 : _chunk_book_text long_book 100000
               = Some ([part_a] ++ part_b :: [part_c]))
    by (apply chunks_eqb_eq; vm_compute; reflexivity).
  assert (H3 : chunks_return scripted gpt 1 1
                 (len ([part_a] ++ part_b :: [part_c])) 1 [part_a]
                 (script failing_answers)
                 [[JStr (str_of "a"); JStr (str_of "b")]]
                 (long_first_sent
                    [ApiError (str_of "quota"); answer d_paragraph_text])).
  { unfold failing_answers, script, long_first_sent.
    eapply chunks_return_cons.
    { apply scripted_answer_returns. vm_compute. reflexivity. }
    apply chunks_return_nil. }
  assert (H4 : _process_single_chunk scripted gpt part_b 1 1
                 (1 + len [part_a]) (len ([part_a] ++ part_b :: [part_c]))
                 (long_first_sent
                    [ApiError (str_of "quota"); answer d_paragraph_text])
               = (Raise (ChunkFailed (1 + len [part_a]) (len long_chunks)
                           (ApiCallFailed (str_of "quota"))), long_failed))
    by (unfold long_first_sent; apply scripted_error_raises).
  split; [exact H1|]. split; [exact H2|]. split; [exact H3|].
  split; [exact H4|].
  apply (fail_fast scripted gpt long_book 1 1 _ [part_a] part_b [part_c]
           _ _ _ _ H1 H2 H3 H4).
Defined.

(** The requests of that run: the first two chunks, not the third. *)
Example long_failed_calls :
  calls long_failed
  = [chunk_request gpt part_a 1 3; chunk_request gpt part_b 2 3]
  /\ backend_state long_failed = [answer d_paragraph_text].
Proof. split; reflexivity. Qed.

(** Three sub-chunks whose calls are answered with two paragraphs, no
    narrative and one paragraph: the lists are joined in that order. *)
Example three_chunks_in_order :
  process_chunks scripted gpt three_chunks 1 1 1 3 []
    (script [answer two_paragraphs_text; answer plain_text;
             answer one_paragraph_text])
  = (Return [JStr (str_of "a"); JStr (str_of "b"); JStr (str_of "c")],
     {| backend_state := [];
        calls := requests_from gpt three_chunks 1 3 |}).
Proof. vm_compute. reflexivity. Qed.

(** The second of three calls fails: the loop raises, two requests were
    sent, and the answer scripted for the third call is still unused. *)
Example three_chunks_second_fails :
  process_chunks scripted gpt three_chunks 1 1 1 3 []
    (script [answer two_paragraphs_text; ApiError (str_of "quota");
             answer one_paragraph_text])
  = (Raise (ChunkFailed 2 3 (ApiCallFailed (str_of "quota"))),
     {| backend_state := [answer one_paragraph_text];
        calls := requests_from gpt (firstn 2 three_chunks) 1 3 |}).
Proof. vm_compute. reflexivity. Qed.

(** One malformed answer among three does not stop the submission. *)
Example three_chunks_truncated_answer :
  process_chunks scripted gpt three_chunks 1 1 1 3 []
    (script [answer two_paragraphs_text; answer truncated_text;
             answer one_paragraph_text])
  = (Return [JStr (str_of "a"); JStr (str_of "b"); JStr (str_of "c")],
     {| backend_state := [];
        calls := requests_from gpt three_chunks 1 3 |}).
Proof. vm_compute. reflexivity. Qed.

(** An answer with an empty [paragraphs] array stops it. *)
Example three_chunks_empty_array_answer :
  process_chunks scripted gpt three_chunks 1 1 1 3 []
    (script [answer two_paragraphs_text; answer empty_paragraphs_text;
             answer one_paragraph_text])
  = (Raise (ChunkFailed 2 3 (InvalidFormat 2)),
     {| backend_state := [answer one_paragraph_text];
        calls := requests_from gpt (firstn 2 three_chunks) 1 3 |}).
Proof. vm_compute. reflexivity. Qed.

(** Without an API key nothing is sent. *)
Example no_key_no_call :
  process_book_text scripted {| api_key := []; model := str_of "gpt-4o" |}
    abc 1 1 (script [answer two_paragraphs_text])
  = (Raise ApiKeyNotConfigured, script [answer two_paragraphs_text]).
Proof. reflexivity. Qed.

(** * Further properties *)

(** ** Chunker: number of chunks, positions, chunk sizes that loop *)

Section ChunkerPositions.

Variable text : str.
Variable chunk_size : Z.
Hypothesis chunk_size_pos : 0 < chunk_size.

Lemma window_count (d : Z) :
  0 < d ->
  (Z.max 0 d + chunk_size - 1) / chunk_size
  = 1 + (Z.max 0 (d - chunk_size) + chunk_size - 1) / chunk_size.
Proof.
  intros Hd. rewrite Z.max_r by lia.
  destruct (Z.le_gt_cases d chunk_size) as [Hle|Hgt].
  - rewrite (Z.max_l 0) by lia.
    replace (0 + chunk_size - 1) with (chunk_size - 1) by lia.
    rewrite (Z.div_small (chunk_size - 1)) by lia.
    replace (d + chunk_size - 1) with (d - 1 + 1 * chunk_size) by lia.
    rewrite Z.div_add by lia. rewrite Z.div_small by lia. lia.
  - rewrite Z.max_r by lia.
    replace (d + chunk_size - 1)
      with (d - chunk_size + chunk_size - 1 + 1 * chunk_size) by lia.
    rewrite Z.div_add by lia. lia.
Qed.

(** The loop from index [i]: the [j]-th chunk it appends is the slice that
    starts [j] windows further, and it appends one chunk per window
    started before the end of the text. *)
Lemma chunk_loop_positions :
  forall fuel chunks i,
    0 <= i ->
    len text - i <= Z.of_nat fuel ->
    exists rest,
      chunk_loop fuel text chunk_size chunks i = Some (chunks ++ rest)
      /\ (forall j c, nth_error rest j = Some c ->
            c = py_slice text (i + Z.of_nat j * chunk_size)
                  (i + Z.of_nat j * chunk_size + chunk_size))
      /\ len rest = (Z.max 0 (len text - i) + chunk_size - 1) / chunk_size.
Proof.
  induction fuel as [|fuel IH]; intros chunks i Hi Hfuel.
  - exists []. simpl.
    destruct (Z.ltb_spec i (len text)) as [H|H]; [exfalso; lia|].
    rewrite app_nil_r. split; [reflexivity|]. split.
    + intros j c Hn. destruct j; discriminate.
    + rewrite Z.max_l by lia. unfold len at 1. simpl.
      rewrite Z.div_small; lia.
  - cbn [chunk_loop].
    destruct (Z.ltb_spec i (len text)) as [H|H].
    + destruct (IH (chunks ++ [py_slice text i (i + chunk_size)])
                  (i + chunk_size)) as [rest [Hrun [Hpos Hcount]]];
        [lia | lia |].
      exists (py_slice text i (i + chunk_size) :: rest).
      rewrite Hrun, <- app_assoc. split; [reflexivity|]. split.
      * intros j c Hn. destruct j as [|j]; simpl in Hn.
        -- injection Hn as <-. simpl. f_equal; lia.
        -- rewrite (Hpos j c Hn). f_equal; lia.
      * unfold len at 1. simpl List.length. rewrite Nat2Z.inj_succ.
        fold (len rest). rewrite Hcount.
        rewrite (window_count (len text - i)) by lia.
        replace (len text - (i + chunk_size))
          with (len text - i - chunk_size) by lia. lia.
    + exists []. rewrite app_nil_r. split; [reflexivity|]. split.
      * intros j c Hn. destruct j; discriminate.
      * rewrite Z.max_l by lia. unfold len at 1. simpl.
        rewrite Z.div_small; lia.
Qed.

(** X1. For a positive chunk size the chunker returns the quotient of the
    length of the text by the chunk size, rounded up, as its number of
    chunks. *)
Theorem chunk_count :
  exists chunks,
    _chunk_book_text text chunk_size = Some chunks
    /\ len chunks = (len text + chunk_size - 1) / chunk_size.
Proof.
  destruct (chunk_loop_positions (List.length text) [] 0)
    as [rest [Hrun [_ Hcount]]]; [lia | unfold len; lia |].
  exists rest. split; [exact Hrun|].
  rewrite Hcount. rewrite Z.sub_0_r.
  rewrite Z.max_r by (unfold len; lia). reflexivity.
Qed.

(** X2. For a positive chunk size the chunk of index [j] (from 0) is the
    slice of the text from [j * chunk_size] to [j * chunk_size +
    chunk_size]. *)
Theorem chunk_at_position :
  exists chunks,
    _chunk_book_text text chunk_size = Some chunks
    /\ forall j c, nth_error chunks j = Some c ->
         c = py_slice text (Z.of_nat j * chunk_size)
               (Z.of_nat j * chunk_size + chunk_size).
Proof.
  destruct (chunk_loop_positions (List.length text) [] 0)
    as [rest [Hrun [Hpos _]]]; [lia | unfold len; lia |].
  exists rest. split; [exact Hrun|].
  intros j c Hn. rewrite (Hpos j c Hn). reflexivity.
Qed.

End ChunkerPositions.

Lemma chunk_loop_never_ends (text : str) (chunk_size : Z) :
  chunk_size <= 0 -> text <> [] ->
  forall fuel chunks i, i <= 0 ->
    chunk_loop fuel text chunk_size chunks i = None.
Proof.
  intros Hcs Hne.
  assert (Hlen : 0 < len text).
  { unfold len. destruct text; [congruence | simpl; lia]. }
  induction fuel as [|fuel IH]; intros chunks i Hi; cbn [chunk_loop];
    destruct (Z.ltb_spec i (len text)) as [H|H]; try (exfalso; lia).
  - reflexivity.
  - apply IH. lia.
Qed.

(** X3. With a chunk size of zero or less the loop of the chunker does not
    end on a non-empty text: the index never passes the end of the text,
    whatever the number of iterations. *)
Theorem chunker_diverges (text : str) (chunk_size : Z) :
  chunk_size <= 0 -> text <> [] ->
  _chunk_book_text text chunk_size = None
  /\ forall fuel, chunk_loop fuel text chunk_size [] 0 = None.
Proof.
  intros Hcs Hne. split.
  - apply chunk_loop_never_ends; [exact Hcs | exact Hne | lia].
  - intros fuel. apply chunk_loop_never_ends; [exact Hcs | exact Hne | lia].
Qed.

Lemma chunk_count_witness :
  0 < 2
  /\ exists chunks,
       _chunk_book_text (str_of "abcde") 2 = Some chunks
       /\ len chunks = (len (str_of "abcde") + 2 - 1) / 2.
Proof.
  split; [lia | apply (chunk_count (str_of "abcde") 2); lia].
Defined.

Lemma chunk_at_position_witness :
  0 < 2
  /\ exists chunks,
       _chunk_book_text (str_of "abcde") 2 = Some chunks
       /\ forall j c, nth_error chunks j = Some c ->
            c = py_slice (str_of "abcde") (Z.of_nat j * 2)
                  (Z.of_nat j * 2 + 2).
Proof.
  split; [lia | apply (chunk_at_position (str_of "abcde") 2); lia].
Defined.

Lemma chunker_diverges_witness :
  0 <= 0
  /\ abc <> []
  /\ _chunk_book_text abc 0 = None
  /\ forall fuel, chunk_loop fuel abc 0 [] 0 = None.
Proof.
  assert (H1 : 0 <= 0) by lia.
  assert (H2 : abc <> []) by (vm_compute; discriminate).
  split; [exact H1|]. split; [exact H2|].
  apply (chunker_diverges abc 0 H1 H2).
Defined.

(** ** The matcher, the fence stage and the candidate *)

Lemma Suffix_refl (s : str) : Suffix s s.
Proof. exists []. reflexivity. Qed.

Lemma Suffix_cons (c : char) (s : str) : Suffix s (c :: s).
Proof. exists [c]. reflexivity. Qed.

Lemma Suffix_trans (a b c : str) : Suffix a b -> Suffix b c -> Suffix a c.
Proof.
  intros [p ->] [q ->]. exists (q ++ p). rewrite app_assoc. reflexivity.
Qed.

Lemma consumed_prefix (p s' : str) : consumed (p ++ s') s' = p.
Proof.
  unfold consumed. rewrite length_app.
  replace (List.length p + List.length s' - List.length s')%nat
    with (List.length p) by lia.
  rewrite firstn_app, Nat.sub_diag, firstn_all. simpl. apply app_nil_r.
Qed.

Lemma Substring_of_suffix (p s' s S : str) :
  s = p ++ s' -> Suffix s S -> Substring p S.
Proof. intros -> [q ->]. exists q, s'. reflexivity. Qed.

Lemma star_greedy_sound (A : Type) (p : char -> bool) (k : str -> option A) :
  forall s a, star_greedy p s k = Some a ->
              exists s', k s' = Some a /\ Suffix s' s.
Proof.
  induction s as [|c s IH]; intros a; cbn [star_greedy].
  - intros H. exists []. split; [exact H | apply Suffix_refl].
  - destruct (p c).
    + unfold or_else. destruct (star_greedy p s k) as [b|] eqn:E.
      * intros H; injection H as <-. destruct (IH b eq_refl) as [s' [Hk Hs]].
        exists s'. split; [exact Hk|].
        eapply Suffix_trans; [exact Hs | apply Suffix_cons].
      * intros H. exists (c :: s). split; [exact H | apply Suffix_refl].
    + intros H. exists (c :: s). split; [exact H | apply Suffix_refl].
Qed.

Lemma star_lazy_sound (A : Type) (p : char -> bool) (k : str -> option A) :
  forall s a, star_lazy p s k = Some a ->
              exists s', k s' = Some a /\ Suffix s' s.
Proof.
  induction s as [|c s IH]; intros a; cbn [star_lazy]; unfold or_else.
  - destruct (k []) as [b|] eqn:E; [|discriminate].
    intros H; injection H as <-. exists []. split; [exact E | apply Suffix_refl].
  - destruct (k (c :: s)) as [b|] eqn:E.
    + intros H; injection H as <-.
      exists (c :: s). split; [exact E | apply Suffix_refl].
    + destruct (p c); [|discriminate].
      intros H. destruct (IH a H) as [s' [Hk Hs]].
      exists s'. split; [exact Hk|].
      eapply Suffix_trans; [exact Hs | apply Suffix_cons].
Qed.

(** Whatever the matcher passes on is a suffix of what it was given, and
    an invariant [G] of the group that holds of every piece of the searched
    text [S] is kept. *)
Lemma rmatch_sound (A : Type) (S : str) (G : option str -> Prop) :
  (forall t, Substring t S -> G (Some t)) ->
  forall r s g (k : str -> option str -> option A) a,
    rmatch r s g k = Some a ->
    Suffix s S -> G g ->
    exists s' g', k s' g' = Some a /\ Suffix s' s /\ G g'.
Proof.
  intros HG.
  induction r as [c | cs greedy | r1 IH1 r2 IH2 | r1 IH1];
    intros s g k a Hm HS Hg; cbn [rmatch] in Hm.
  - destruct s as [|x s']; [discriminate|].
    destruct (x =? c)%N; [|discriminate].
    exists s', g. split; [exact Hm|]. split; [apply Suffix_cons | exact Hg].
  - destruct greedy.
    + apply star_greedy_sound in Hm. destruct Hm as [s' [Hk Hs]].
      exists s', g. auto.
    + apply star_lazy_sound in Hm. destruct Hm as [s' [Hk Hs]].
      exists s', g. auto.
  - apply IH1 in Hm; [|exact HS|exact Hg].
    destruct Hm as [s1 [g1 [Hm [Hs1 Hg1]]]].
    apply IH2 in Hm; [|eapply Suffix_trans; eassumption|exact Hg1].
    destruct Hm as [s2 [g2 [Hk [Hs2 Hg2]]]].
    exists s2, g2. split; [exact Hk|].
    split; [eapply Suffix_trans; eassumption | exact Hg2].
  - apply IH1 in Hm; [|exact HS|exact Hg].
    destruct Hm as [s1 [g1 [Hk [Hs1 Hg1]]]].
    exists s1, (Some (consumed s s1)). split; [exact Hk|].
    split; [exact Hs1|].
    apply HG. destruct Hs1 as [p Hp].
    rewrite Hp, consumed_prefix.
    eapply Substring_of_suffix; eassumption.
Qed.

Lemma rmatch_suffix (A : Type) r s g (k : str -> option str -> option A) a :
  rmatch r s g k = Some a ->
  exists s' g', k s' g' = Some a /\ Suffix s' s.
Proof.
  intros Hm.
  destruct (rmatch_sound A s (fun _ => True) (fun _ _ => I) r s g k a Hm
              (Suffix_refl s) I) as [s' [g' [Hk [Hs _]]]].
  exists s', g'. split; assumption.
Qed.

(** A pattern that ends with a literal consumes text that ends with that
    character. *)
Lemma rmatch_last_lit (A : Type) :
  forall r c, last_lit r = Some c ->
  forall s g (k : str -> option str -> option A) a,
    rmatch r s g k = Some a ->
    exists p s' g', k s' g' = Some a /\ s = p ++ [c] ++ s'.
Proof.
  induction r as [c0 | cs greedy | r1 IH1 r2 IH2 | r1 IH1];
    intros c Hl s g k a Hm; cbn [last_lit] in Hl; try discriminate.
  - injection Hl as ->. cbn [rmatch] in Hm.
    destruct s as [|x s']; [discriminate|].
    destruct (N.eqb_spec x c) as [->|]; [|discriminate].
    exists [], s', g. split; [exact Hm | reflexivity].
  - cbn [rmatch] in Hm. apply rmatch_suffix in Hm.
    destruct Hm as [s1 [g1 [Hm [q Hq]]]].
    destruct (IH2 c Hl _ _ _ _ Hm) as [p [s' [g' [Hk Hs]]]].
    exists (q ++ p), s', g'. split; [exact Hk|].
    rewrite Hq, Hs, <- app_assoc. reflexivity.
Qed.

Lemma last_lit_lits (t : str) (r : regex) (c : char) :
  last_lit r = Some c -> last_lit (lits t r) = Some c.
Proof. intros H. induction t as [|x t IH]; simpl; assumption. Qed.

(** What a match is: its text is a prefix of the text matched at, and the
    text of its group is a piece of the whole text. *)
Lemma match_at_sound (r : regex) (s S : str) (m : re_match) :
  match_at r s = Some m -> Suffix s S ->
  (exists rest, s = group0 m ++ rest)
  /\ Substring (group0 m) S
  /\ (forall t, group1 m = Some t -> Substring t S).
Proof.
  unfold match_at. intros Hm HS.
  apply (rmatch_sound _ S (fun g => forall t, g = Some t -> Substring t S))
    in Hm; [|intros t Ht t' E; injection E as <-; exact Ht|exact HS
            |discriminate].
  destruct Hm as [s' [g' [Hk [[p Hp] Hg]]]].
  injection Hk as <-. cbn [group0 group1].
  rewrite Hp, consumed_prefix. split; [exists s'; reflexivity|].
  split; [eapply Substring_of_suffix; eassumption | exact Hg].
Qed.

Lemma re_search_sound (r : regex) (S : str) :
  forall s m, re_search r s = Some m -> Suffix s S ->
    Substring (group0 m) S
    /\ (forall t, group1 m = Some t -> Substring t S).
Proof.
  induction s as [|c s IH]; intros m; cbn [re_search]; unfold or_else.
  - destruct (match_at r []) as [m0|] eqn:E; [|discriminate].
    intros H HS; injection H as <-.
    destruct (match_at_sound r [] S m0 E HS) as [_ H]. exact H.
  - destruct (match_at r (c :: s)) as [m0|] eqn:E.
    + intros H HS; injection H as <-.
      destruct (match_at_sound r _ S m0 E HS) as [_ H]. exact H.
    + intros H HS. apply IH; [exact H|].
      eapply Suffix_trans; [apply Suffix_cons | exact HS].
Qed.

(** The match of a pattern that ends with a literal ends with it. *)
Lemma re_search_last_lit (r : regex) (c : char) :
  last_lit r = Some c ->
  forall s m, re_search r s = Some m -> exists p, group0 m = p ++ [c].
Proof.
  intros Hl. induction s as [|x s IH]; intros m; cbn [re_search];
    unfold or_else.
  - destruct (match_at r []) as [m0|] eqn:E; [|discriminate].
    intros H; injection H as <-. unfold match_at in E.
    apply (rmatch_last_lit _ r c Hl) in E.
    destruct E as [p [s' [g' [Hk Hs]]]]. destruct p; discriminate.
  - destruct (match_at r (x :: s)) as [m0|] eqn:E.
    + intros H; injection H as <-. unfold match_at in E.
      apply (rmatch_last_lit _ r c Hl) in E.
      destruct E as [p [s' [g' [Hk Hs]]]]. injection Hk as <-.
      cbn [group0]. exists p.
      rewrite Hs. rewrite (app_assoc p [c] s'), consumed_prefix. reflexivity.
    + apply IH.
Qed.

(** The match of a pattern that starts with a literal starts with it. *)
Lemma re_search_first_lit (r : regex) (c : char) :
  first_lit r = Some c ->
  forall s m, re_search r s = Some m -> exists p, group0 m = c :: p.
Proof.
  intros Hf.
  assert (Hat : forall s m, match_at r s = Some m ->
                            exists p, group0 m = c :: p).
  { intros s m Hm. unfold match_at in Hm.
    assert (Hs : exists s1, s = c :: s1
                 /\ exists s' g', Suffix s' s1
                      /\ m = {| group0 := consumed s s'; group1 := g' |}).
    { destruct r as [c0 | | r1 r2 |]; try discriminate.
      - injection Hf as ->. cbn [rmatch] in Hm.
        destruct s as [|x s1]; [discriminate|].
        destruct (N.eqb_spec x c) as [->|]; [|discriminate].
        injection Hm as <-. exists s1. split; [reflexivity|].
        exists s1, None. split; [apply Suffix_refl | reflexivity].
      - destruct r1 as [c0 | | |]; try discriminate.
        injection Hf as ->. cbn [rmatch] in Hm.
        destruct s as [|x s1]; [discriminate|].
        destruct (N.eqb_spec x c) as [->|]; [|discriminate].
        apply rmatch_suffix in Hm. destruct Hm as [s' [g' [Hk Hs]]].
        injection Hk as <-. exists s1. split; [reflexivity|].
        exists s', g'. split; [exact Hs | reflexivity]. }
    destruct Hs as [s1 [-> [s' [g' [[p Hp] ->]]]]]. cbn [group0].
    exists p. rewrite Hp.
    change (c :: p ++ s') with ((c :: p) ++ s').
    apply consumed_prefix. }
  induction s as [|x s IH]; intros m; cbn [re_search]; unfold or_else.
  - destruct (match_at r []) as [m0|] eqn:E; [|discriminate].
    intros H; injection H as <-. eapply Hat; eassumption.
  - destruct (match_at r (x :: s)) as [m0|] eqn:E.
    + intros H; injection H as <-. eapply Hat; eassumption.
    + apply IH.
Qed.

Lemma Substring_refl (s : str) : Substring s s.
Proof. exists [], []. rewrite app_nil_r. reflexivity. Qed.

Lemma Substring_trans (a b c : str) :
  Substring a b -> Substring b c -> Substring a c.
Proof.
  intros [p [q ->]] [p' [q' ->]]. exists (p' ++ p), (q ++ q').
  rewrite <- !app_assoc. reflexivity.
Qed.

Lemma Substring_In (t s : str) (c : char) :
  Substring t s -> In c t -> In c s.
Proof.
  intros [p [q ->]] H. apply in_or_app. right. apply in_or_app. left. exact H.
Qed.

Lemma strip_fences_piece (text_content : str) :
  Substring (strip_fences text_content) text_content.
Proof.
  unfold strip_fences.
  destruct (contains json_fence text_content).
  - destruct (re_search re_json_fence text_content) as [m|] eqn:E;
      [|apply Substring_refl].
    destruct (group1 m) as [g|] eqn:Eg; [|apply Substring_refl].
    destruct (re_search_sound _ text_content _ _ E (Suffix_refl _)) as [_ H].
    apply H. exact Eg.
  - destruct (contains fence text_content); [|apply Substring_refl].
    destruct (re_search re_any_fence text_content) as [m|] eqn:E;
      [|apply Substring_refl].
    destruct (group1 m) as [g|] eqn:Eg; [|apply Substring_refl].
    destruct (re_search_sound _ text_content _ _ E (Suffix_refl _)) as [_ H].
    apply H. exact Eg.
Qed.

Lemma find_json_object_cases (json_text : str) (m : re_match) :
  find_json_object json_text = Some m ->
  re_search re_paragraphs_object json_text = Some m
  \/ re_search re_any_object json_text = Some m.
Proof.
  unfold find_json_object, or_else.
  destruct (re_search re_paragraphs_object json_text); intros H.
  - left. exact H.
  - right. exact H.
Qed.

Lemma candidate_shape (json_text : str) (m : re_match) :
  find_json_object json_text = Some m ->
  Substring (group0 m) json_text
  /\ exists mid, group0 m = [chr "{"] ++ mid ++ [chr "}"].
Proof.
  intros Hm. apply find_json_object_cases in Hm.
  assert (H : Substring (group0 m) json_text
              /\ (exists p, group0 m = chr "{" :: p)
              /\ (exists p, group0 m = p ++ [chr "}"])).
  { destruct Hm as [Hm|Hm].
    - split; [|split].
      + exact (proj1 (re_search_sound _ _ _ _ Hm (Suffix_refl _))).
      + exact (re_search_first_lit re_paragraphs_object (chr "{") eq_refl
                 _ _ Hm).
      + exact (re_search_last_lit re_paragraphs_object (chr "}") eq_refl
                 _ _ Hm).
    - split; [|split].
      + exact (proj1 (re_search_sound _ _ _ _ Hm (Suffix_refl _))).
      + exact (re_search_first_lit re_any_object (chr "{") eq_refl _ _ Hm).
      + exact (re_search_last_lit re_any_object (chr "}") eq_refl _ _ Hm). }
  destruct H as [Hsub [[p Hp] [p' Hp']]]. split; [exact Hsub|].
  rewrite Hp' in Hp. destruct p' as [|x p'].
  - simpl in Hp. injection Hp as Hc _. vm_compute in Hc. discriminate.
  - simpl in Hp. injection Hp as -> _. exists p'. rewrite Hp'. reflexivity.
Qed.

Lemma no_brace_no_candidate (text_content : str) :
  ~ In (chr "}") text_content ->
  find_json_object (strip_fences text_content) = None.
Proof.
  intros Hno.
  destruct (find_json_object (strip_fences text_content)) as [m0|] eqn:E;
    [|reflexivity].
  destruct (candidate_shape _ _ E) as [Hsub [mid Hmid]].
  exfalso. apply Hno.
  eapply Substring_In; [apply strip_fences_piece|].
  eapply Substring_In; [exact Hsub|].
  rewrite Hmid. apply in_or_app. right. apply in_or_app. right.
  left. reflexivity.
Qed.

Lemma In_Substring (c : char) (s : str) : In c s -> Substring [c] s.
Proof.
  intros H. apply in_split in H. destruct H as [p [q ->]].
  exists p, q. reflexivity.
Qed.

(** X4. When there is a candidate, it is a piece of the completion text,
    as is what the fence stage handed on, and it starts with an opening
    brace and ends with a closing brace. *)
Theorem candidate_is_braced_piece (text_content : str) (m : re_match) :
  find_json_object (strip_fences text_content) = Some m ->
  Substring (strip_fences text_content) text_content
  /\ Substring (group0 m) text_content
  /\ exists mid, group0 m = [chr "{"] ++ mid ++ [chr "}"].
Proof.
  intros Hm. split; [apply strip_fences_piece|].
  destruct (candidate_shape _ _ Hm) as [Hsub Hmid].
  split; [|exact Hmid].
  eapply Substring_trans; [exact Hsub | apply strip_fences_piece].
Qed.

(** X5. A tame completion text (one the decoder and [print] take without
    an error of their own), with a printable finish reason, that has no
    closing brace, has no candidate: when its direct parse fails the
    recoverer returns the empty list, and the bracket repair is not
    reached. *)
Theorem no_closing_brace_no_repair
    (m : str) (i : Z) (text_content fr : str) :
  tame text_content = true ->
  printable fr = true ->
  text_content <> [] ->
  contains (str_of "}") text_content = false ->
  json_loads text_content = None ->
  find_json_object (strip_fences text_content) = None
  /\ recover_paragraphs m i text_content fr = Return [].
Proof.
  intros _ _ Hne Hno Hparse.
  assert (Hnone : find_json_object (strip_fences text_content) = None).
  { apply no_brace_no_candidate. intros Hin.
    apply contains_false_spec in Hno. apply Hno.
    apply In_Substring. exact Hin. }
  split; [exact Hnone|].
  destruct text_content as [|x t]; [congruence|].
  unfold recover_paragraphs.
  destruct (narrative_gate (x :: t)); [reflexivity|].
  unfold parse_stages. rewrite Hparse.
  unfold parse_after_extraction. rewrite Hnone. reflexivity.
Qed.

(** ** The repair *)

Lemma count_char_app (c : char) (a b : str) :
  count_char c (a ++ b) = count_char c a + count_char c b.
Proof.
  unfold count_char, len.
  rewrite filter_app, length_app, Nat2Z.inj_add. reflexivity.
Qed.

Lemma count_char_repeat (c d : char) (n : Z) :
  count_char c (repeat_char d n)
  = if (d =? c)%N then Z.max 0 n else 0.
Proof.
  unfold count_char, repeat_char, len.
  assert (H : forall k,
             Z.of_nat (List.length
                         (filter (fun x => (x =? c)%N) (repeat d k)))
             = if (d =? c)%N then Z.of_nat k else 0).
  { destruct (d =? c)%N eqn:E; induction k as [|k IH]; simpl;
      try rewrite E; simpl List.length; lia. }
  rewrite H. destruct (d =? c)%N; lia.
Qed.

Ltac compare_closers :=
  change (chr "]" =? chr "[")%N with false;
  change (chr "}" =? chr "[")%N with false;
  change (chr "]" =? chr "]")%N with true;
  change (chr "}" =? chr "]")%N with false;
  change (chr "]" =? chr "{")%N with false;
  change (chr "}" =? chr "{")%N with false;
  change (chr "]" =? chr "}")%N with false;
  change (chr "}" =? chr "}")%N with true;
  cbv iota.

(** The repair appends: closing brackets, as many as are missing, then
    closing braces, as many as are missing. *)
Lemma repair_brackets_appends (s : str) :
  repair_brackets s
  = s ++ repeat_char (chr "]")
           (count_char (chr "[") s - count_char (chr "]") s)
      ++ repeat_char (chr "}")
           (count_char (chr "{") s - count_char (chr "}") s).
Proof.
  unfold repair_brackets.
  remember (count_char (chr "[") s - count_char (chr "]") s) as a eqn:Ea.
  assert (Hs1 : (if count_char (chr "]") s <? count_char (chr "[") s
                 then s ++ repeat_char (chr "]") a else s)
                = s ++ repeat_char (chr "]") a).
  { destruct (Z.ltb_spec (count_char (chr "]") s) (count_char (chr "[") s)).
    - reflexivity.
    - unfold repeat_char. replace (Z.to_nat a) with 0%nat by lia.
      simpl. rewrite app_nil_r. reflexivity. }
  rewrite Hs1. clear Hs1.
  assert (Hb1 : count_char (chr "{") (s ++ repeat_char (chr "]") a)
                = count_char (chr "{") s).
  { rewrite count_char_app, count_char_repeat.
    change (chr "]" =? chr "{")%N with false. cbv iota. lia. }
  assert (Hb2 : count_char (chr "}") (s ++ repeat_char (chr "]") a)
                = count_char (chr "}") s).
  { rewrite count_char_app, count_char_repeat.
    change (chr "]" =? chr "}")%N with false. cbv iota. lia. }
  rewrite Hb1, Hb2.
  destruct (Z.ltb_spec (count_char (chr "}") s) (count_char (chr "{") s)).
  - rewrite <- app_assoc. reflexivity.
  - unfold repeat_char at 3.
    replace (Z.to_nat (count_char (chr "{") s - count_char (chr "}") s))
      with 0%nat by lia.
    simpl. rewrite app_nil_r. reflexivity.
Qed.

Lemma count_char_repair (c : char) (s : str) :
  count_char c (repair_brackets s)
  = count_char c s
    + (if (chr "]" =? c)%N
       then Z.max 0 (count_char (chr "[") s - count_char (chr "]") s)
       else 0)
    + (if (chr "}" =? c)%N
       then Z.max 0 (count_char (chr "{") s - count_char (chr "}") s)
       else 0).
Proof.
  rewrite repair_brackets_appends, !count_char_app, !count_char_repeat. lia.
Qed.

(** X6. The repair only appends, closing brackets first and closing
    braces after them, as many of each as are missing; the result has at
    least as many closing brackets as opening ones and at least as many
    closing braces as opening ones. *)
Theorem repair_brackets_closes (s : str) :
  repair_brackets s
  = s ++ repeat_char (chr "]")
           (count_char (chr "[") s - count_char (chr "]") s)
      ++ repeat_char (chr "}")
           (count_char (chr "{") s - count_char (chr "}") s)
  /\ count_char (chr "[") (repair_brackets s)
     <= count_char (chr "]") (repair_brackets s)
  /\ count_char (chr "{") (repair_brackets s)
     <= count_char (chr "}") (repair_brackets s).
Proof.
  split; [apply repair_brackets_appends|].
  rewrite !count_char_repair. compare_closers. lia.
Qed.

(** X7. Repairing a repaired candidate changes nothing. *)
Theorem repair_brackets_idempotent (s : str) :
  repair_brackets (repair_brackets s) = repair_brackets s.
Proof.
  rewrite (repair_brackets_appends (repair_brackets s)).
  rewrite !count_char_repair.
  compare_closers.
  unfold repeat_char at 1 2.
  match goal with |- context [repeat (chr "]") (Z.to_nat ?a)] =>
    replace (Z.to_nat a) with 0%nat by lia end.
  match goal with |- context [repeat (chr "}") (Z.to_nat ?a)] =>
    replace (Z.to_nat a) with 0%nat by lia end.
  simpl. rewrite app_nil_r. reflexivity.
Qed.

(** ** Exceptions and results of the recoverer *)

Lemma object_items_dict :
  forall fuel s acc v r,
    object_items fuel s acc = POk v r -> exists d, v = JDict d.
Proof.
  induction fuel as [|fuel IH]; intros s acc v r; cbn [object_items];
    [discriminate|].
  destruct s as [|c s1]; [discriminate|].
  destruct (c =? dquote)%N; [|discriminate].
  destruct (scanstring (S (List.length s1)) s1 []) as [key r0| |];
    try discriminate.
  destruct (skip_ws r0) as [|d r1]; [discriminate|].
  destruct (d =? chr ":")%N; [|discriminate].
  destruct (scan_once fuel (skip_ws r1)) as [x r2| |]; try discriminate.
  destruct (skip_ws r2) as [|e r3]; [discriminate|].
  destruct (e =? chr "}")%N.
  { intros H; injection H as <- _. eexists. reflexivity. }
  destruct (e =? chr ",")%N; [|discriminate].
  apply IH.
Qed.

(** A text that starts with an opening brace decodes to a [dict], if it
    decodes. *)
Lemma json_loads_brace (s : str) (v : json) :
  json_loads (chr "{" :: s) = Some v -> exists d, v = JDict d.
Proof.
  unfold json_loads.
  change (skip_ws (chr "{" :: s)) with (chr "{" :: s).
  cbn [scan_once].
  change (chr "{" =? dquote)%N with false.
  change (chr "{" =? chr "{")%N with true. cbv iota.
  destruct (skip_ws s) as [|d s2]; [discriminate|].
  destruct (d =? chr "}")%N.
  - destruct (skip_ws s2); [|discriminate].
    intros H; injection H as <-. eexists. reflexivity.
  - destruct (object_items _ (d :: s2) []) as [x r| |] eqn:E;
      try discriminate.
    apply object_items_dict in E. destruct E as [d0 ->].
    destruct (skip_ws r); [|discriminate].
    intros H; injection H as <-. eexists. reflexivity.
Qed.

(** On a [dict] the final check raises nothing but the invalid-format
    error. *)
Lemma check_format_dict (i : Z) (d : list (str * json)) (e : exn) :
  check_format i (JDict d) = Raise e -> e = InvalidFormat i.
Proof.
  unfold check_format.
  destruct (truthy (JDict d)); cbn [negb].
  - destruct (dict_get d (str_of "paragraphs")) as [v|].
    + destruct (truthy v); cbn [negb].
      * destruct v; intros H; try discriminate; injection H as <-;
          reflexivity.
      * intros H; injection H as <-; reflexivity.
    + intros H; injection H as <-; reflexivity.
  - intros H; injection H as <-; reflexivity.
Qed.

Lemma check_format_raises (i : Z) (v : json) (e : exn) :
  check_format i v = Raise e ->
  e = InvalidFormat i
  \/ (e = AttributeError /\ forall d, v <> JDict d).
Proof.
  destruct v as [| b | n | f | s | l | d];
    try (unfold check_format;
         match goal with |- context [truthy ?x] => destruct (truthy x) end;
         cbn [negb]; intros H; injection H as <-;
         [right; split; [reflexivity | discriminate] | left; reflexivity]).
  intros H. left. eapply check_format_dict. exact H.
Qed.

(** What the final check returns is a non-empty list found under
    [paragraphs] in a [dict]. *)
Lemma check_format_returns (i : Z) (v : json) (l : list json) :
  check_format i v = Return l ->
  l <> []
  /\ exists d, v = JDict d
              /\ dict_get d (str_of "paragraphs") = Some (JList l).
Proof.
  unfold check_format. destruct (truthy v); cbn [negb]; [|discriminate].
  destruct v as [| b | n | f | s | l0 | d]; try discriminate.
  destruct (dict_get d (str_of "paragraphs")) as [x|] eqn:E;
    [|discriminate].
  destruct (truthy x) eqn:Et; cbn [negb]; [|discriminate].
  destruct x; try discriminate.
  intros H; injection H as <-. split.
  - destruct l0; [discriminate Et | discriminate].
  - exists d. split; [reflexivity | exact E].
Qed.

(** The value parsed from a repaired candidate is a [dict]. *)
Lemma candidate_parses_to_dict (json_text : str) (m : re_match) (v : json) :
  find_json_object json_text = Some m ->
  json_loads (repair_brackets (group0 m)) = Some v ->
  exists d, v = JDict d.
Proof.
  intros Hm Hv. destruct (candidate_shape _ _ Hm) as [_ [mid Hmid]].
  rewrite repair_brackets_appends, Hmid in Hv.
  cbn [app] in Hv. eapply json_loads_brace. exact Hv.
Qed.

(** Past the gate, on a text that is not empty: the parse stages raise the
    invalid-format error, or the attribute error when the direct parse gave
    a value that is not an object. *)
Lemma parse_stages_raise_cases (i : Z) (text_content : str) (e : exn) :
  text_content <> [] ->
  parse_stages i text_content = Raise e ->
  e = InvalidFormat i
  \/ (e = AttributeError
      /\ exists v, json_loads text_content = Some v
                   /\ forall d, v <> JDict d).
Proof.
  unfold parse_stages. intros Hne H.
  destruct (json_loads text_content) as [v|] eqn:Ev.
  - apply check_format_raises in H. destruct H as [-> | [-> Hv]].
    + left. reflexivity.
    + right. split; [reflexivity|]. exists v. split; [reflexivity | exact Hv].
  - left. unfold parse_after_extraction in H.
    destruct (find_json_object (strip_fences text_content)) as [m0|] eqn:Em.
    + destruct (json_loads (repair_brackets (group0 m0))) as [v|] eqn:Ev2;
        [|discriminate].
      destruct (candidate_parses_to_dict _ _ _ Em Ev2) as [d ->].
      eapply check_format_dict. exact H.
    + destruct text_content; [congruence | discriminate].
Qed.

(** X8. On a tame completion text, with a printable model name and finish
    reason, the recoverer raises three exceptions and no other: the
    empty-response error, on the empty text only; the invalid-format
    error; and the attribute error, only when the direct parse itself gave
    a value that is not an object.  The error of line 190, for a text in
    which no JSON was found, is never raised. *)
Theorem recover_exceptions
    (m : str) (i : Z) (text_content fr : str) (e : exn) :
  printable m = true ->
  printable fr = true ->
  tame text_content = true ->
  recover_paragraphs m i text_content fr = Raise e ->
  (text_content = [] /\ e = EmptyResponse m fr)
  \/ (text_content <> [] /\ e = InvalidFormat i)
  \/ (text_content <> [] /\ e = AttributeError
      /\ exists v, json_loads text_content = Some v
                   /\ forall d, v <> JDict d).
Proof.
  intros _ _ _.
  unfold recover_paragraphs. destruct text_content as [|x t].
  { intros H; injection H as <-. left. split; reflexivity. }
  intros H. right.
  assert (Hne : x :: t <> []) by discriminate.
  destruct (narrative_gate (x :: t)); [discriminate|].
  apply parse_stages_raise_cases in H; [|exact Hne].
  destruct H as [-> | [-> Hv]].
  - left. split; [exact Hne | reflexivity].
  - right. split; [exact Hne|]. split; [reflexivity | exact Hv].
Qed.

(** X9. What the recoverer returns is the empty list or a non-empty list.
    It returns the empty list only when the gate fires or when no parse
    gives a value, neither the direct one nor that of a repaired
    candidate.  It returns a non-empty list only past the gate, and that
    list is the one found under [paragraphs] in the object the final parse
    gave. *)
Theorem recover_returns
    (m : str) (i : Z) (text_content fr : str) (l : list json) :
  recover_paragraphs m i text_content fr = Return l ->
  (l = []
   /\ (narrative_gate text_content = true
       \/ final_parse text_content = None))
  \/ (l <> []
      /\ narrative_gate text_content = false
      /\ exists d, final_parse text_content = Some (JDict d)
                  /\ dict_get d (str_of "paragraphs") = Some (JList l)).
Proof.
  unfold recover_paragraphs. destruct text_content as [|x t];
    [discriminate|].
  destruct (narrative_gate (x :: t)).
  { intros H; injection H as <-. left. split; [reflexivity|].
    left. reflexivity. }
  unfold parse_stages, final_parse.
  destruct (json_loads (x :: t)) as [v|].
  - intros H. apply check_format_returns in H.
    destruct H as [Hl [d [-> Hd]]]. right. split; [exact Hl|].
    split; [reflexivity|]. exists d. split; [reflexivity | exact Hd].
  - unfold parse_after_extraction.
    destruct (find_json_object (strip_fences (x :: t))) as [m0|].
    + destruct (json_loads (repair_brackets (group0 m0))) as [v|].
      * intros H. apply check_format_returns in H.
        destruct H as [Hl [d [-> Hd]]]. right. split; [exact Hl|].
        split; [reflexivity|]. exists d. split; [reflexivity | exact Hd].
      * intros H; injection H as <-. left.
        split; [reflexivity | right; reflexivity].
    + intros H; injection H as <-. left.
      split; [reflexivity | right; reflexivity].
Qed.

(** ** A fenced block *)

Lemma rmatch_cat (A : Type) r1 r2 s g (k : str -> option str -> option A) :
  rmatch (Cat r1 r2) s g k
  = rmatch r1 s g (fun s' g' => rmatch r2 s' g' k).
Proof. reflexivity. Qed.

Lemma rmatch_star (A : Type) cs (greedy : bool) s g
    (k : str -> option str -> option A) :
  rmatch (Star cs greedy) s g k
  = (if greedy then star_greedy (in_cset cs) s (fun s' => k s' g)
     else star_lazy (in_cset cs) s (fun s' => k s' g)).
Proof. destruct greedy; reflexivity. Qed.

Lemma rmatch_group (A : Type) r s g (k : str -> option str -> option A) :
  rmatch (Group r) s g k
  = rmatch r s g (fun s' _ => k s' (Some (consumed s s'))).
Proof. reflexivity. Qed.

Lemma rmatch_lits (A : Type) (t : str) (r : regex) (s : str) g
    (k : str -> option str -> option A) :
  rmatch (lits t r) (t ++ s) g k = rmatch r s g k.
Proof.
  induction t as [|c t IH]; [reflexivity|].
  cbn [lits app rmatch]. rewrite N.eqb_refl. exact IH.
Qed.

(** A greedy star over a run of matching characters that ends before a
    character that does not match passes the rest on, when the rest is
    accepted. *)
Lemma star_greedy_run (A : Type) (p : char -> bool) (k : str -> option A) :
  forall run rest a,
    forallb p run = true ->
    match rest with [] => True | c :: _ => p c = false end ->
    k rest = Some a ->
    star_greedy p (run ++ rest) k = Some a.
Proof.
  induction run as [|c run IH]; intros rest a Hrun Hrest Hk.
  - simpl. destruct rest as [|c rest]; [exact Hk|].
    cbn [star_greedy]. rewrite Hrest. exact Hk.
  - simpl in Hrun. apply andb_true_iff in Hrun. destruct Hrun as [Hc Hrun].
    cbn [app star_greedy]. rewrite Hc.
    rewrite (IH rest a Hrun Hrest Hk). reflexivity.
Qed.

(** A greedy star fails when what follows is refused after every part of
    the run it can consume. *)
Lemma star_greedy_none (A : Type) (p : char -> bool) (k : str -> option A) :
  forall s,
    (forall s1 s2, s = s1 ++ s2 -> forallb p s1 = true -> k s2 = None) ->
    star_greedy p s k = None.
Proof.
  induction s as [|c s IH]; intros H; cbn [star_greedy].
  - apply (H [] []); reflexivity.
  - destruct (p c) eqn:Hc.
    + rewrite IH.
      * simpl. apply (H [] (c :: s)); reflexivity.
      * intros s1 s2 -> Hs1. apply (H (c :: s1) s2); [reflexivity|].
        simpl. rewrite Hc. exact Hs1.
    + apply (H [] (c :: s)); reflexivity.
Qed.

(** A lazy star over any character stops at the first place where what
    follows is accepted. *)
Lemma star_lazy_first (A : Type) (k : str -> option A) :
  forall b rest a,
    (forall b1 c b2, b = b1 ++ c :: b2 -> k (c :: b2 ++ rest) = None) ->
    k rest = Some a ->
    star_lazy (in_cset Any) (b ++ rest) k = Some a.
Proof.
  induction b as [|c b IH]; intros rest a Hnone Hk.
  - simpl. destruct rest as [|x rest]; cbn [star_lazy]; rewrite Hk;
      reflexivity.
  - cbn [app star_lazy].
    rewrite (Hnone [] c b eq_refl). cbn [or_else in_cset].
    apply IH; [|exact Hk].
    intros b1 c0 b2 ->. apply (Hnone (c :: b1) c0 b2). reflexivity.
Qed.

Lemma ticks_refused (A : Type) (s : str) g
    (k : str -> option str -> option A) :
  match s with [] => True | c :: _ => c <> chr "`" end ->
  rmatch ticks s g k = None.
Proof.
  destruct s as [|c s]; intros H; cbn [ticks rmatch]; [reflexivity|].
  destruct (N.eqb_spec c (chr "`")); [contradiction | reflexivity].
Qed.

(** A run of spaces from the start of a text whose last character is not a
    space ends inside that text. *)
Lemma spaces_end_inside (last : char) :
  is_space last = false ->
  forall b rest s1 x s2,
    (b ++ [last]) ++ rest = s1 ++ x :: s2 ->
    forallb is_space s1 = true ->
    In x (b ++ [last]).
Proof.
  intros Hlast. induction b as [|y b IH]; intros rest s1 x s2 Hs Hs1.
  - destruct s1 as [|z s1]; simpl in Hs.
    + injection Hs as -> _. left. reflexivity.
    + injection Hs as -> _. simpl in Hs1.
      rewrite Hlast in Hs1. discriminate.
  - destruct s1 as [|z s1]; simpl in Hs.
    + injection Hs as -> _. left. reflexivity.
    + injection Hs as _ Hs. simpl in Hs1.
      apply andb_true_iff in Hs1. destruct Hs1 as [_ Hs1].
      right. apply (IH rest s1 x s2 Hs Hs1).
Qed.

(** A non-empty end of a text has the last character of the text. *)
Lemma tail_keeps_last (last c : char) :
  forall b1 b2 hd : str,
    b1 ++ c :: b2 = hd ++ [last] -> exists b, c :: b2 = b ++ [last].
Proof.
  induction b1 as [|y b1 IH]; intros b2 hd H.
  - simpl in H. exists (removelast (c :: b2)).
    rewrite H, removelast_last. reflexivity.
  - destruct hd as [|z hd]; simpl in H; injection H as _ H.
    + destruct b1; discriminate.
    + apply (IH b2 hd H).
Qed.

Section Fenced.

Variables body ws ws' post : str.
Hypothesis body_plain : ~ In (chr "`") body.
Hypothesis ws_space : forallb is_space ws = true.
Hypothesis ws'_space : forallb is_space ws' = true.
Variables first last : char.
Hypothesis body_first : exists tl, body = first :: tl.
Hypothesis body_last : exists hd, body = hd ++ [last].
Hypothesis first_dark : is_space first = false.
Hypothesis last_dark : is_space last = false.

(** Inside the body, the closing part of the pattern is refused. *)
Lemma closing_refused_inside (A : Type) b1 c b2 g
    (k : str -> option str -> option A) :
  body = b1 ++ c :: b2 ->
  rmatch (Cat (Star Space true) ticks)
    (c :: b2 ++ ws' ++ fence ++ post) g k = None.
Proof.
  intros Hb. rewrite rmatch_cat, rmatch_star.
  apply star_greedy_none. intros s1 s2 Hs Hs1.
  apply ticks_refused.
  destruct s2 as [|x s2]; [exact I|].
  assert (Hin : In x (c :: b2)).
  { destruct body_last as [hd Hlast]. rewrite Hb in Hlast.
    destruct (tail_keeps_last _ _ _ _ _ Hlast) as [b Hb2].
    change (c :: b2 ++ ws' ++ fence ++ post)
      with ((c :: b2) ++ ws' ++ fence ++ post) in Hs.
    rewrite Hb2 in *.
    eapply spaces_end_inside; [exact last_dark | exact Hs | exact Hs1]. }
  intros ->. apply body_plain. rewrite Hb.
  apply in_or_app. right. exact Hin.
Qed.

(** After an opener, the rest of a fenced block is matched with the body
    as the group. *)
Lemma fence_body_matches (A : Type) (k : str -> option str -> option A) a :
  k post (Some body) = Some a ->
  rmatch fence_body (ws ++ body ++ ws' ++ fence ++ post) None k = Some a.
Proof.
  intros Hk.
  unfold fence_body. fold ticks. rewrite rmatch_cat, rmatch_star.
  destruct body_first as [tl Hfirst].
  apply star_greedy_run; [exact ws_space | rewrite Hfirst; exact first_dark|].
  rewrite rmatch_cat, rmatch_group, rmatch_star.
  apply star_lazy_first.
  - intros b1 c b2 Hb.
    apply (closing_refused_inside _ b1 c b2 _ _ Hb).
  - rewrite rmatch_cat, rmatch_star.
    apply star_greedy_run; [exact ws'_space | reflexivity|].
    rewrite consumed_prefix. exact Hk.
Qed.

End Fenced.

Lemma first_lit_refuses (A : Type) (r : regex) (c x : char) (s : str) g
    (k : str -> option str -> option A) :
  first_lit r = Some c -> x <> c -> rmatch r (x :: s) g k = None.
Proof.
  intros Hf Hx.
  destruct r as [c0 | | r1 r2 |]; try discriminate.
  - injection Hf as ->. cbn [rmatch].
    destruct (N.eqb_spec x c); [contradiction | reflexivity].
  - destruct r1 as [c0 | | |]; try discriminate.
    injection Hf as ->. rewrite rmatch_cat. cbn [rmatch].
    destruct (N.eqb_spec x c); [contradiction | reflexivity].
Qed.

(** The search passes over text that lacks the first character of the
    pattern. *)
Lemma re_search_skip (r : regex) (c : char) (s : str) :
  first_lit r = Some c ->
  forall pre, ~ In c pre -> re_search r (pre ++ s) = re_search r s.
Proof.
  intros Hf. induction pre as [|x pre IH]; intros Hpre; [reflexivity|].
  cbn [app re_search]. unfold match_at.
  rewrite (first_lit_refuses _ r c x _ _ _ Hf).
  - cbn [or_else]. apply IH. intros Hin. apply Hpre. right. exact Hin.
  - intros ->. apply Hpre. left. reflexivity.
Qed.

Lemma re_search_here (r : regex) (s : str) (m : re_match) :
  match_at r s = Some m -> re_search r s = Some m.
Proof. intros H. destruct s; cbn [re_search]; rewrite H; reflexivity. Qed.

Lemma lacks_char (c : char) (s : str) :
  contains [c] s = false -> ~ In c s.
Proof.
  intros H Hin. apply contains_false_spec in H. apply H.
  apply In_Substring. exact Hin.
Qed.

Lemma head_and_last (s : str) :
  is_space (hd (chr " ") s) = false ->
  is_space (List.last s (chr " ")) = false ->
  (exists tl, s = hd (chr " ") s :: tl)
  /\ (exists front, s = front ++ [List.last s (chr " ")]).
Proof.
  intros Hh Hl. destruct s as [|x s]; [discriminate Hh|]. split.
  - exists s. reflexivity.
  - exists (removelast (x :: s)). apply app_removelast_last. discriminate.
Qed.

(** The search of a fence pattern in a text with one fenced block. *)
Lemma fenced_block_search (opener pre ws body ws' post : str) :
  (exists t, opener = chr "`" :: t) ->
  contains (str_of "`") pre = false ->
  contains (str_of "`") body = false ->
  forallb is_space ws = true ->
  forallb is_space ws' = true ->
  is_space (hd (chr " ") body) = false ->
  is_space (List.last body (chr " ")) = false ->
  exists m,
    re_search (lits opener fence_body)
      (pre ++ opener ++ ws ++ body ++ ws' ++ fence ++ post) = Some m
    /\ group1 m = Some body.
Proof.
  intros [t ->] Hpre Hbody Hws Hws' Hh Hl.
  destruct (head_and_last body Hh Hl) as [Hfirst Hlast].
  rewrite (re_search_skip _ (chr "`")); [|reflexivity|apply lacks_char, Hpre].
  eexists. split.
  - apply re_search_here. unfold match_at. rewrite rmatch_lits.
    eapply fence_body_matches; try eassumption.
    + apply lacks_char, Hbody.
    + reflexivity.
  - reflexivity.
Qed.

(** X10. A completion with one block fenced as JSON, or one plain fenced
    block when the text nowhere has the JSON fence: text without
    backticks, the opening fence, spaces, a body without backticks that
    neither starts nor ends with a space, spaces, the closing fence, and
    any text after it.  The fence stage hands on exactly the body. *)
Theorem fenced_block_gives_body (opener pre ws body ws' post : str) :
  opener = json_fence
  \/ (opener = fence
      /\ contains json_fence
           (pre ++ opener ++ ws ++ body ++ ws' ++ fence ++ post) = false) ->
  contains (str_of "`") pre = false ->
  contains (str_of "`") body = false ->
  forallb is_space ws = true ->
  forallb is_space ws' = true ->
  is_space (hd (chr " ") body) = false ->
  is_space (List.last body (chr " ")) = false ->
  strip_fences (pre ++ opener ++ ws ++ body ++ ws' ++ fence ++ post) = body.
Proof.
  intros Hop Hpre Hbody Hws Hws' Hh Hl.
  assert (Hopener : exists t, opener = chr "`" :: t).
  { destruct Hop as [-> | [-> _]]; eexists; reflexivity. }
  destruct (fenced_block_search opener pre ws body ws' post
              Hopener Hpre Hbody Hws Hws' Hh Hl) as [m [Hm Hg]].
  unfold strip_fences. destruct Hop as [-> | [-> Hno]].
  - assert (Hc : contains json_fence
                   (pre ++ json_fence ++ ws ++ body ++ ws' ++ fence ++ post)
                 = true).
    { apply contains_spec. eexists pre, _. reflexivity. }
    rewrite Hc.
    change re_json_fence with (lits json_fence fence_body).
    rewrite Hm, Hg. reflexivity.
  - rewrite Hno.
    assert (Hc : contains fence
                   (pre ++ fence ++ ws ++ body ++ ws' ++ fence ++ post)
                 = true).
    { apply contains_spec. eexists pre, _. reflexivity. }
    rewrite Hc.
    change re_any_fence with (lits fence fence_body).
    rewrite Hm, Hg. reflexivity.
Qed.

(** ** Runs of the orchestrator *)

Lemma recover_raise_kinds
    (m : str) (i : Z) (text_content fr : str) (e : exn) :
  recover_paragraphs m i text_content fr = Raise e ->
  e = EmptyResponse m fr \/ e = InvalidFormat i \/ e = AttributeError.
Proof.
  unfold recover_paragraphs. destruct text_content as [|x t].
  { intros H; injection H as <-. left. reflexivity. }
  destruct (narrative_gate (x :: t)); [discriminate|].
  intros H. apply parse_stages_raise_cases in H; [|discriminate].
  destruct H as [-> | [-> _]]; auto.
Qed.

Lemma short_text_one_chunk (text : str) (chunk_size : Z) :
  text <> [] -> len text <= chunk_size ->
  _chunk_book_text text chunk_size = Some [text].
Proof.
  intros Hne Hle. unfold _chunk_book_text.
  destruct text as [|x t] eqn:Et; [congruence|]. rewrite <- Et in *.
  assert (Hlen : 0 < len text) by (rewrite Et; unfold len; simpl; lia).
  replace (List.length text) with (S (List.length t))
    by (rewrite Et; reflexivity).
  cbn [chunk_loop].
  destruct (Z.ltb_spec 0 (len text)) as [_|H]; [|exfalso; lia].
  assert (Hs : py_slice text 0 (0 + chunk_size) = text).
  { unfold py_slice, clamp_index.
    destruct (Z.ltb_spec 0 0); [exfalso; lia|].
    destruct (Z.ltb_spec (0 + chunk_size) 0); [exfalso; lia|].
    rewrite (Z.min_l 0) by lia. rewrite Z.min_r by lia.
    simpl skipn. apply firstn_all2. unfold len. lia. }
  rewrite Hs. simpl app.
  destruct (List.length t); cbn [chunk_loop];
    destruct (Z.ltb_spec (0 + chunk_size) (len text)); try (exfalso; lia);
    reflexivity.
Qed.

Section OrchestratorRuns.

Context {backend : Type}.
Variable create : backend -> request -> api_response * backend.
Variable self : OpenAIService.

Lemma single_chunk_raise_kinds c ci tc i n w e w' :
  _process_single_chunk create self c ci tc i n w = (Raise e, w') ->
  exists cause, e = ChunkFailed i n cause /\ chunk_failure self i cause.
Proof.
  rewrite single_chunk_unfold.
  destruct (create _ _) as [resp b]. cbv zeta.
  destruct resp as [msg | content fr].
  - intros H; injection H as <- _. eexists. split; [reflexivity|].
    left. eexists. reflexivity.
  - destruct (recover_paragraphs _ _ _ _) as [l|e0|] eqn:E;
      intros H; try discriminate.
    injection H as <- _. exists e0. split; [reflexivity|].
    apply recover_raise_kinds in E. unfold chunk_failure.
    destruct E as [-> | [-> | ->]]; eauto.
Qed.

(** A run of the loop: every sub-chunk returned, or the sub-chunks before
    one returned and that one raised. *)
Lemma process_chunks_cases ci tc n :
  forall chunks i acc w o w',
    process_chunks create self chunks ci tc i n acc w = (o, w') ->
    (exists ls,
        o = Return (acc ++ concat ls)
        /\ chunks_return create self ci tc n i chunks w ls w')
    \/ (exists pre c post ls w1 e,
          chunks = pre ++ c :: post
          /\ chunks_return create self ci tc n i pre w ls w1
          /\ _process_single_chunk create self c ci tc (i + len pre) n w1
             = (Raise e, w')
          /\ o = Raise e).
Proof.
  induction chunks as [|c rest IH]; intros i acc w o w' Hrun.
  - left. exists []. cbn in Hrun. injection Hrun as <- <-.
    simpl. rewrite app_nil_r. split; [reflexivity | constructor].
  - cbn [process_chunks] in Hrun. unfold bind in Hrun.
    destruct (_process_single_chunk create self c ci tc i n w)
      as [[l|e|] w1] eqn:Ec.
    + apply IH in Hrun. destruct Hrun as [[ls [-> Hls]] | Hfail].
      * left. exists (l :: ls). split.
        -- simpl. rewrite app_assoc. reflexivity.
        -- econstructor; eassumption.
      * destruct Hfail as [pre [c0 [post [ls [w2 [e [-> [Hpre [Hc ->]]]]]]]]].
        right. exists (c :: pre), c0, post, (l :: ls), w2, e.
        split; [reflexivity|]. split; [econstructor; eassumption|].
        split; [|reflexivity].
        rewrite <- Hc. f_equal. unfold len. simpl List.length. lia.
    + injection Hrun as <- <-. right.
      exists [], c, rest, [], w, e. split; [reflexivity|].
      split; [constructor|]. split; [|reflexivity].
      rewrite <- Ec. f_equal. unfold len. simpl. lia.
    + apply single_chunk_calls in Ec. destruct Ec as [_ Hd]. congruence.
Qed.

Lemma chunking_returns text :
  exists chunks, _chunk_book_text text 100000 = Some chunks.
Proof.
  destruct (chunk_book_text_windows text 100000 ltac:(lia)) as [chunks [H _]].
  exists chunks. exact H.
Qed.

Lemma firstn_prefix (A : Type) (pre : list A) (c : A) (post : list A) :
  firstn (Z.to_nat (1 + len pre)) (pre ++ c :: post) = pre ++ [c].
Proof.
  unfold len. replace (Z.to_nat (1 + Z.of_nat (List.length pre)))
    with (List.length (pre ++ [c]))
    by (rewrite length_app; cbn [List.length]; lia).
  change (pre ++ c :: post) with (pre ++ [c] ++ post).
  rewrite app_assoc, firstn_app, Nat.sub_diag, firstn_all. simpl.
  apply app_nil_r.
Qed.

(** X11. A submission that returns sent one request per chunk, in order, and
    its aggregate joins what the sub-chunks returned. *)
Theorem success_sent_every_chunk text ci tc w r w' :
  process_book_text create self text ci tc w = (Return r, w') ->
  exists chunks ls,
    _chunk_book_text text 100000 = Some chunks
    /\ chunks_return create self ci tc (len chunks) 1 chunks w ls w'
    /\ r = {| status := str_of "success";
              paragraphs := concat ls;
              total_paragraphs := len (concat ls) |}
    /\ calls w' = calls w ++ requests_from self chunks 1 (len chunks).
Proof.
  intros Hrun.
  destruct (chunking_returns text) as [chunks Hchunks].
  assert (Hkey : api_key self <> []).
  { intros Hk. unfold process_book_text in Hrun. rewrite Hk in Hrun.
    discriminate. }
  rewrite (process_book_text_unfold create self text ci tc w chunks
             Hkey Hchunks) in Hrun.
  destruct (process_chunks create self chunks ci tc 1 (len chunks) [] w)
    as [[all|e|] w1] eqn:E; try discriminate.
  injection Hrun as <- <-.
  apply process_chunks_cases in E.
  destruct E as [[ls [Hall Hls]] | Hfail].
  - injection Hall as ->. exists chunks, ls. split; [exact Hchunks|].
    split; [exact Hls|]. split; [reflexivity|].
    eapply chunks_return_calls. exact Hls.
  - destruct Hfail as [pre [c [post [ls [w2 [e [_ [_ [_ He]]]]]]]]].
    discriminate.
Qed.

(** X12. With a printable model name and a backend whose responses are
    tame, a submission that raises either has no API key, and then nothing
    was sent, or failed at a sub-chunk [k]: the exception carries [k] and
    the number of chunks, its cause is a failed call, an empty response,
    an invalid format or an attribute error, and the requests sent are
    those of the first [k] chunks. *)
Theorem failure_names_the_chunk (good : backend -> Prop) text ci tc w e w' :
  keeps_tame create good ->
  good (backend_state w) ->
  printable (model self) = true ->
  process_book_text create self text ci tc w = (Raise e, w') ->
  (api_key self = [] /\ e = ApiKeyNotConfigured /\ w' = w)
  \/ (exists chunks k cause,
        _chunk_book_text text 100000 = Some chunks
        /\ 1 <= k <= len chunks
        /\ e = ChunkFailed k (len chunks) cause
        /\ chunk_failure self k cause
        /\ calls w'
           = calls w
             ++ requests_from self (firstn (Z.to_nat k) chunks) 1 (len chunks)).
Proof.
  intros _ _ _ Hrun.
  destruct (api_key self) as [|x key] eqn:Hk.
  { left. unfold process_book_text in Hrun. rewrite Hk in Hrun.
    injection Hrun as <- <-. auto. }
  right.
  destruct (chunking_returns text) as [chunks Hchunks].
  assert (Hkey : api_key self <> []) by (rewrite Hk; discriminate).
  rewrite (process_book_text_unfold create self text ci tc w chunks
             Hkey Hchunks) in Hrun.
  destruct (process_chunks create self chunks ci tc 1 (len chunks) [] w)
    as [[all|e0|] w1] eqn:E; try discriminate.
  injection Hrun as <- <-.
  apply process_chunks_cases in E.
  destruct E as [[ls [Hall _]] | Hfail]; [discriminate|].
  destruct Hfail as [pre [c [post [ls [w2 [e [Hsplit [Hpre [Hc He]]]]]]]]].
  injection He as <-. subst chunks.
  destruct (single_chunk_raise_kinds _ _ _ _ _ _ _ _ Hc) as [cause [-> Hcause]].
  exists (pre ++ c :: post), (1 + len pre), cause.
  split; [exact Hchunks|]. split.
  { unfold len. rewrite length_app. cbn [List.length]. lia. }
  split; [reflexivity|]. split; [exact Hcause|].
  apply single_chunk_calls in Hc. destruct Hc as [-> _].
  rewrite (chunks_return_calls _ _ _ _ _ _ _ _ _ _ Hpre).
  rewrite firstn_prefix.
  rewrite requests_from_app, <- app_assoc. reflexivity.
Qed.

(** X13. A submission always ends: it returns or raises. *)
Theorem submission_ends text ci tc w :
  fst (process_book_text create self text ci tc w) <> Diverge.
Proof.
  destruct (process_book_text create self text ci tc w) as [o w'] eqn:Hrun.
  cbn [fst]. intros ->.
  unfold process_book_text in Hrun.
  destruct (api_key self) as [|x key]; [discriminate|].
  destruct (chunking_returns text) as [chunks Hchunks].
  rewrite Hchunks in Hrun. unfold bind in Hrun.
  destruct (process_chunks create self chunks ci tc 1 (len chunks) [] w)
    as [[all|e0|] w1] eqn:E; try discriminate.
  apply process_chunks_cases in E.
  destruct E as [[ls [Hall _]] | Hfail]; [discriminate|].
  destruct Hfail as [pre [c [post [ls [w2 [e [_ [_ [_ He]]]]]]]]].
  discriminate.
Qed.

(** X14. A book of at most 100000 characters is sent whole in one request,
    as chunk 1 of 1, and the outcome of the submission is that of this
    sub-chunk; an empty book sends nothing and gives the empty
    aggregate. *)
Theorem short_book_one_request text ci tc w :
  api_key self <> [] ->
  len text <= 100000 ->
  (text = [] ->
   process_book_text create self text ci tc w
   = (Return {| status := str_of "success";
                paragraphs := [];
                total_paragraphs := 0 |}, w))
  /\ (text <> [] ->
      exists o w',
        _process_single_chunk create self text ci tc 1 1 w = (o, w')
        /\ calls w' = calls w ++ [chunk_request self text 1 1]
        /\ process_book_text create self text ci tc w
           = (match o with
              | Return l =>
                  Return {| status := str_of "success";
                            paragraphs := l;
                            total_paragraphs := len l |}
              | Raise e => Raise e
              | Diverge => Diverge
              end, w')).
Proof.
  intros Hkey Hlen. split.
  - intros ->.
    rewrite (process_book_text_unfold create self [] ci tc w [] Hkey eq_refl).
    reflexivity.
  - intros Hne.
    pose proof (short_text_one_chunk text 100000 Hne Hlen) as Hchunks.
    rewrite (process_book_text_unfold create self text ci tc w [text]
               Hkey Hchunks).
    change (len [text]) with 1. cbn [process_chunks]. unfold bind.
    destruct (_process_single_chunk create self text ci tc 1 1 w)
      as [o w'] eqn:E.
    exists o, w'. split; [reflexivity|].
    split; [exact (proj1 (single_chunk_calls _ _ _ _ _ _ _ _ _ _ E))|].
    destruct o; reflexivity.
Qed.

End OrchestratorRuns.

(** ** The prompt *)

Lemma str_of_inj (a b : string) : str_of a = str_of b -> a = b.
Proof.
  revert b. induction a as [|x a IH]; intros [|y b]; simpl; try discriminate.
  - reflexivity.
  - intros H. injection H as Hc Ht. f_equal; [|apply IH; exact Ht].
    rewrite <- (ascii_N_embedding x), <- (ascii_N_embedding y), Hc.
    reflexivity.
Qed.

Lemma to_int_not_nil (z : Z) : Z.to_int z <> Decimal.Pos Decimal.Nil
  /\ Z.to_int z <> Decimal.Neg Decimal.Nil.
Proof.
  destruct z as [|p|p]; simpl; split; try discriminate;
    intros H; injection H as H; exact (DecimalPos.Unsigned.to_uint_nonnil p H).
Qed.

Lemma str_of_int_inj (a b : Z) : str_of_int a = str_of_int b -> a = b.
Proof.
  unfold str_of_int. intros H. apply str_of_inj in H.
  apply DecimalZ.to_int_inj.
  destruct (to_int_not_nil a) as [Ha1 Ha2].
  destruct (to_int_not_nil b) as [Hb1 Hb2].
  pose proof (NilZero.isi _ Ha1 Ha2) as Ea.
  pose proof (NilZero.isi _ Hb1 Hb2) as Eb.
  rewrite H in Ea. rewrite Ea in Eb. injection Eb as ->. reflexivity.
Qed.

Lemma string_of_uint_digits (d : Decimal.uint) :
  forallb numeral_char (str_of (NilEmpty.string_of_uint d)) = true.
Proof. induction d; simpl; auto. Qed.

Lemma str_of_int_numeral (z : Z) :
  forallb numeral_char (str_of_int z) = true.
Proof.
  unfold str_of_int, NilZero.string_of_int, NilZero.string_of_uint.
  destruct (Z.to_int z) as [d|d]; destruct d; simpl;
    try reflexivity; apply string_of_uint_digits.
Qed.

(** Two texts that agree up to a character their first parts lack agree
    part by part. *)
Lemma split_at_delimiter (c : char) :
  forall a a' b b' : str,
    ~ In c a -> ~ In c a' ->
    a ++ c :: b = a' ++ c :: b' -> a = a' /\ b = b'.
Proof.
  induction a as [|x a IH]; intros a' b b' Ha Ha' H.
  - destruct a' as [|y a']; simpl in H.
    + injection H as ->. auto.
    + injection H as <- _. exfalso. apply Ha'. left. reflexivity.
  - destruct a' as [|y a']; simpl in H.
    + injection H as -> _. exfalso. apply Ha. left. reflexivity.
    + injection H as -> H.
      destruct (IH a' b b') as [-> ->]; auto.
      * intros Hin. apply Ha. right. exact Hin.
      * intros Hin. apply Ha'. right. exact Hin.
Qed.

Lemma numeral_lacks (c : char) (z : Z) :
  numeral_char c = false -> ~ In c (str_of_int z).
Proof.
  intros Hc Hin. pose proof (str_of_int_numeral z) as H.
  rewrite forallb_forall in H. rewrite (H c Hin) in Hc. discriminate.
Qed.

(** X15. The prompt names its sub-chunk: two prompts that are equal were
    built for the same text at the same position of the same total. *)
Theorem prompt_names_chunk (t t' : str) (i n i' n' : Z) :
  build_prompt t i n = build_prompt t' i' n' ->
  i = i' /\ n = n' /\ t = t'.
Proof.
  unfold build_prompt. intros H. apply app_inv_head in H.
  change (str_of "/" ++ ?x) with (chr "/" :: x) in H.
  apply split_at_delimiter in H;
    [|apply numeral_lacks; reflexivity|apply numeral_lacks; reflexivity].
  destruct H as [Hi H]. apply str_of_int_inj in Hi.
  change (str_of "):" ++ ?x) with (chr ")" :: chr ":" :: x) in H.
  apply split_at_delimiter in H;
    [|apply numeral_lacks; reflexivity|apply numeral_lacks; reflexivity].
  destruct H as [Hn H]. apply str_of_int_inj in Hn.
  injection H as H. auto.
Qed.

(** ** The finish reason *)

(** X16. On a completion text that is not empty the finish reason and the
    model name have no effect on what the recoverer gives: a response cut
    by the length limit is processed like a complete one. *)
Theorem finish_reason_is_ignored
    (m m' : str) (i : Z) (text_content fr fr' : str) :
  text_content <> [] ->
  recover_paragraphs m i text_content fr
  = recover_paragraphs m' i text_content fr'.
Proof.
  intros Hne. destruct text_content as [|x t]; [congruence|].
  unfold recover_paragraphs. reflexivity.
Qed.

(** ** The further properties on the sample inputs *)

Lemma candidate_is_braced_piece_witness :
  find_json_object (strip_fences fenced_text) = Some two_paragraphs_match
  /\ Substring (strip_fences fenced_text) fenced_text
  /\ Substring (group0 two_paragraphs_match) fenced_text
  /\ exists mid, group0 two_paragraphs_match = [chr "{"] ++ mid ++ [chr "}"].
Proof.
  assert (H : find_json_object (strip_fences fenced_text)
              = Some two_paragraphs_match) by (vm_compute; reflexivity).
  split; [exact H|].
  apply (candidate_is_braced_piece fenced_text two_paragraphs_match H).
Defined.

Lemma no_closing_brace_no_repair_witness :
  tame truncated_text = true
  /\ printable (str_of "stop") = true
  /\ truncated_text <> []
  /\ contains (str_of "}") truncated_text = false
  /\ json_loads truncated_text = None
  /\ find_json_object (strip_fences truncated_text) = None
  /\ recover_paragraphs (model gpt) 1 truncated_text (str_of "stop")
     = Return [].
Proof.
  assert (Ht : tame truncated_text = true) by (vm_compute; reflexivity).
  assert (Hp : printable (str_of "stop") = true) by (vm_compute; reflexivity).
  assert (H1 : truncated_text <> []) by (vm_compute; discriminate).
  assert (H2 : contains (str_of "}") truncated_text = false)
    by (vm_compute; reflexivity).
  assert (H3 : json_loads truncated_text = None) by (vm_compute; reflexivity).
  split; [exact Ht|]. split; [exact Hp|].
  split; [exact H1|]. split; [exact H2|]. split; [exact H3|].
  apply (no_closing_brace_no_repair (model gpt) 1 truncated_text
           (str_of "stop") Ht Hp H1 H2 H3).
Defined.

Lemma recover_exceptions_witness :
  printable (model gpt) = true
  /\ printable (str_of "stop") = true
  /\ tame empty_paragraphs_text = true
  /\ recover_paragraphs (model gpt) 1 empty_paragraphs_text (str_of "stop")
     = Raise (InvalidFormat 1)
  /\ ((empty_paragraphs_text = []
       /\ InvalidFormat 1 = EmptyResponse (model gpt) (str_of "stop"))
      \/ (empty_paragraphs_text <> [] /\ InvalidFormat 1 = InvalidFormat 1)
      \/ (empty_paragraphs_text <> [] /\ InvalidFormat 1 = AttributeError
          /\ exists v, json_loads empty_paragraphs_text = Some v
                       /\ forall d, v <> JDict d)).
Proof.
  assert (H : recover_paragraphs (model gpt) 1 empty_paragraphs_text
                (str_of "stop") = Raise (InvalidFormat 1))
    by (vm_compute; reflexivity).
  assert (Hm : printable (model gpt) = true) by (vm_compute; reflexivity).
  assert (Hf : printable (str_of "stop") = true) by (vm_compute; reflexivity).
  assert (Ht : tame empty_paragraphs_text = true)
    by (vm_compute; reflexivity).
  split; [exact Hm|]. split; [exact Hf|]. split; [exact Ht|].
  split; [exact H|].
  apply (recover_exceptions (model gpt) 1 empty_paragraphs_text
           (str_of "stop") (InvalidFormat 1) Hm Hf Ht H).
Defined.

Lemma recover_returns_witness :
  recover_paragraphs (model gpt) 1 two_paragraphs_text (str_of "stop")
  = Return [JStr (str_of "a"); JStr (str_of "b")]
  /\ (([JStr (str_of "a"); JStr (str_of "b")] = []
       /\ (narrative_gate two_paragraphs_text = true
           \/ final_parse two_paragraphs_text = None))
      \/ ([JStr (str_of "a"); JStr (str_of "b")] <> []
          /\ narrative_gate two_paragraphs_text = false
          /\ exists d,
               final_parse two_paragraphs_text = Some (JDict d)
               /\ dict_get d (str_of "paragraphs")
                  = Some (JList [JStr (str_of "a"); JStr (str_of "b")]))).
Proof.
  assert (H : recover_paragraphs (model gpt) 1 two_paragraphs_text
                (str_of "stop")
              = Return [JStr (str_of "a"); JStr (str_of "b")])
    by (vm_compute; reflexivity).
  split; [exact H|].
  apply (recover_returns (model gpt) 1 two_paragraphs_text (str_of "stop")
           [JStr (str_of "a"); JStr (str_of "b")] H).
Defined.

Lemma fenced_block_gives_body_witness :
  (json_fence = json_fence
   \/ (json_fence = fence
       /\ contains json_fence
            (fenced_prefix ++ json_fence ++ [nl] ++ two_paragraphs_text
               ++ [nl] ++ fence ++ []) = false))
  /\ contains (str_of "`") fenced_prefix = false
  /\ contains (str_of "`") two_paragraphs_text = false
  /\ forallb is_space [nl] = true
  /\ forallb is_space [nl] = true
  /\ is_space (hd (chr " ") two_paragraphs_text) = false
  /\ is_space (List.last two_paragraphs_text (chr " ")) = false
  /\ strip_fences
       (fenced_prefix ++ json_fence ++ [nl] ++ two_paragraphs_text
          ++ [nl] ++ fence ++ [])
     = two_paragraphs_text.
Proof.
  assert (H1 : json_fence = json_fence
               \/ (json_fence = fence
                   /\ contains json_fence
                        (fenced_prefix ++ json_fence ++ [nl]
                           ++ two_paragraphs_text ++ [nl] ++ fence ++ [])
                      = false))
    by (left; reflexivity).
  assert (H2 : contains (str_of "`") fenced_prefix = false)
    by (vm_compute; reflexivity).
  assert (H3 : contains (str_of "`") two_paragraphs_text = false)
    by (vm_compute; reflexivity).
  assert (H4 : forallb is_space [nl] = true) by (vm_compute; reflexivity).
  assert (H5 : is_space (hd (chr " ") two_paragraphs_text) = false)
    by (vm_compute; reflexivity).
  assert (H6 : is_space (List.last two_paragraphs_text (chr " ")) = false)
    by (vm_compute; reflexivity).
  split; [exact H1|]. split; [exact H2|]. split; [exact H3|].
  split; [exact H4|]. split; [exact H4|]. split; [exact H5|].
  split; [exact H6|].
  apply (fenced_block_gives_body json_fence fenced_prefix [nl]
           two_paragraphs_text [nl] [] H1 H2 H3 H4 H4 H5 H6).
Defined.

Lemma success_sent_every_chunk_witness :
  process_book_text scripted gpt long_book 1 1 (script three_answers)
  = (Return {| status := str_of "success";
               paragraphs := concat three_lists;
               total_paragraphs := len (concat three_lists) |}, long_sent)
  /\ exists chunks ls,
       _chunk_book_text long_book 100000 = Some chunks
       /\ chunks_return scripted gpt 1 1 (len chunks) 1 chunks
            (script three_answers) ls long_sent
       /\ {| status := str_of "success";
             paragraphs := concat three_lists;
             total_paragraphs := len (concat three_lists) |}
          = {| status := str_of "success";
               paragraphs := concat ls;
               total_paragraphs := len (concat ls) |}
       /\ calls long_sent
          = calls (script three_answers)
            ++ requests_from gpt chunks 1 (len chunks).
Proof.
  assert (H : process_book_text scripted gpt long_book 1 1
                (script three_answers)
              = (Return {| status := str_of "success";
                           paragraphs := concat three_lists;
                           total_paragraphs := len (concat three_lists) |},
                 long_sent))
    by exact long_book_run.
  split; [exact H|].
  apply (success_sent_every_chunk scripted gpt long_book 1 1 _ _ _ H).
Defined.

Lemma failure_names_the_chunk_witness :
  keeps_tame scripted all_tame
  /\ all_tame (backend_state (script failing_answers))
  /\ printable (model gpt) = true
  /\ process_book_text scripted gpt long_book 1 1 (script failing_answers)
     = (Raise (ChunkFailed 2 3 (ApiCallFailed (str_of "quota"))),
        long_failed)
  /\ ((api_key gpt = []
       /\ ChunkFailed 2 3 (ApiCallFailed (str_of "quota"))
          = ApiKeyNotConfigured
       /\ long_failed = script failing_answers)
      \/ (exists chunks k cause,
            _chunk_book_text long_book 100000 = Some chunks
            /\ 1 <= k <= len chunks
            /\ ChunkFailed 2 3 (ApiCallFailed (str_of "quota"))
               = ChunkFailed k (len chunks) cause
            /\ chunk_failure gpt k cause
            /\ calls long_failed
               = calls (script failing_answers)
                 ++ requests_from gpt (firstn (Z.to_nat k) chunks) 1
                      (len chunks))).
Proof.
  assert (H1 : keeps_tame scripted all_tame) by exact scripted_keeps_tame.
  assert (H2 : all_tame (backend_state (script failing_answers)))
    by (repeat constructor; vm_compute; reflexivity).
  assert (H3 : printable (model gpt) = true) by (vm_compute; reflexivity).
  assert (H4 : process_book_text scripted gpt long_book 1 1
                 (script failing_answers)
               = (Raise (ChunkFailed 2 3 (ApiCallFailed (str_of "quota"))),
                  long_failed))
    by exact long_book_fails.
  split; [exact H1|]. split; [exact H2|]. split; [exact H3|].
  split; [exact H4|].
  apply (failure_names_the_chunk scripted gpt all_tame long_book 1 1 _ _ _
           H1 H2 H3 H4).
Defined.

Lemma short_book_one_request_witness :
  api_key gpt <> []
  /\ len abc <= 100000
  /\ (abc = [] ->
      process_book_text scripted gpt abc 1 1
        (script [answer two_paragraphs_text])
      = (Return {| status := str_of "success";
                   paragraphs := [];
                   total_paragraphs := 0 |},
         script [answer two_paragraphs_text]))
  /\ (abc <> [] ->
      exists o w',
        _process_single_chunk scripted gpt abc 1 1 1 1
          (script [answer two_paragraphs_text]) = (o, w')
        /\ calls w'
           = calls (script [answer two_paragraphs_text])
             ++ [chunk_request gpt abc 1 1]
        /\ process_book_text scripted gpt abc 1 1
             (script [answer two_paragraphs_text])
           = (match o with
              | Return l =>
                  Return {| status := str_of "success";
                            paragraphs := l;
                            total_paragraphs := len l |}
              | Raise e => Raise e
              | Diverge => Diverge
              end, w')).
Proof.
  assert (H1 : api_key gpt <> []) by (vm_compute; discriminate).
  assert (H2 : len abc <= 100000) by (vm_compute; discriminate).
  split; [exact H1|]. split; [exact H2|].
  apply (short_book_one_request scripted gpt abc 1 1
           (script [answer two_paragraphs_text]) H1 H2).
Defined.

Lemma prompt_names_chunk_witness :
  build_prompt abc 2 3 = build_prompt abc 2 3
  /\ 2 = 2 /\ 3 = 3 /\ abc = abc.
Proof.
  assert (H : build_prompt abc 2 3 = build_prompt abc 2 3) by reflexivity.
  split; [exact H|].
  apply (prompt_names_chunk abc abc 2 3 2 3 H).
Defined.

Lemma finish_reason_is_ignored_witness :
  truncated_text <> []
  /\ recover_paragraphs (model gpt) 1 truncated_text (str_of "stop")
     = recover_paragraphs (str_of "gpt-4o-mini") 1 truncated_text
         (str_of "length").
Proof.
  assert (H : truncated_text <> []) by (vm_compute; discriminate).
  split; [exact H|].
  apply (finish_reason_is_ignored (model gpt) (str_of "gpt-4o-mini") 1
           truncated_text (str_of "stop") (str_of "length") H).
Defined.
